(** * The prize wheel: selection engine, animation controller, history store

    A shallow embedding of [lib/lottery.ts] (the classes [LotteryEngine] and
    [WheelAnimationController]), of [HistoryStorage] in [lib/storage.ts] and
    of the data model in [types.ts], followed by the properties the
    specification states about them.

    Conventions of the embedding.
    - A JavaScript [number] of the engine is an exact rational ([Q]):
      rounding, NaN and the infinities of IEEE doubles are not modelled.
      Equality of numbers is therefore [==] ([Qeq]).  The rational
      functions carry the properties that rounding does not touch (which
      pools throw, that an entry of the pool is returned, which entries a
      draw excludes) and those stated in exact arithmetic.  What the engine
      decides by comparing rounded results (which entry a draw selects,
      which digits a percentage prints) is settled on doubles, in module
      [Double].
    - [Math.random()] is an explicit argument [rnd]; the host promises
      [0 <= rnd < 1].
    - [undefined] is [None]; a thrown [Error] is the [Throw] completion.
      Arrays are lists: the [!items] test for a missing array has no
      counterpart.  Default arguments are passed explicitly.
    - [console.warn] appends to a log that the function returns.
    - Easing functions are pure functions of the progress.
    - The animation controller never branches on a number except through
      [progress < 1], so it is modelled over an arbitrary number structure
      (class [Number]); the host's frame queue and the calls made on the
      controller are explicit. *)

From Stdlib Require Import String List ZArith QArith Qabs Qround Qminmax Qpower.
From Stdlib Require Import Lqa Lia Bool DecimalString.
From Stdlib Require Import Floats.
Import ListNotations.

(** A decimal literal of a double stands for the nearest double, as in
    JavaScript. *)
Set Warnings "-inexact-float".

Open Scope Q_scope.

(** ** Data model ([types.ts]) *)

Inductive SlotItemType := text_only | image_text.

Record SlotItem := {
  id : string;
  type : SlotItemType;
  text : string;
  imageUrl : option string;
  weight : Q;
  isDefault : bool
}.

(** The [id] field of a history record is [recordId] here: projections share
    one name space. *)
Record HistoryRecord := {
  recordId : string;
  itemId : string;
  timestamp : string;
  result : string
}.

(** ** Errors and completions *)

(** [new Error(message)]. *)
Inductive Error := MkError (message : string).

Inductive Completion (A : Type) :=
| Return (value : A)
| Throw (error : Error).
Arguments Return {A} value.
Arguments Throw {A} error.

Definition msg_items_empty : string := "转盘项目列表不能为空".
Definition msg_total_weight : string := "转盘项目总权重必须大于0".
Definition msg_not_in_wheel : string := "选中的项目不在转盘列表中".
Definition msg_no_element : string := "转盘元素不存在".
Definition msg_already_spinning : string := "转盘正在旋转中".

Definition NoTarget (e : Error) : Prop := e = MkError msg_no_element.
Definition AlreadySpinning (e : Error) : Prop := e = MkError msg_already_spinning.

(** ** Helpers standing for built-ins *)

Definition Qlt_bool (x y : Q) : bool := negb (Qle_bool y x).

(** [Array.prototype.slice(0, end)] for an integer [end]. *)
Definition slice0 {A : Type} (l : list A) (end_ : Z) : list A :=
  let len := Z.of_nat (length l) in
  let final := if (end_ <? 0)%Z then Z.max (len + end_) 0 else Z.min end_ len in
  firstn (Z.to_nat final) l.

(** [Array.prototype.includes] on strings. *)
Definition includes (l : list string) (s : string) : bool :=
  existsb (String.eqb s) l.

(** [Array.prototype.findIndex]: the first index whose element satisfies [p],
    [-1] when there is none. *)
Fixpoint findIndex_from {A : Type} (p : A -> bool) (l : list A) (k : Z) : Z :=
  match l with
  | [] => (-1)%Z
  | x :: rest => if p x then k else findIndex_from p rest (k + 1)%Z
  end.
Definition findIndex {A : Type} (p : A -> bool) (l : list A) : Z :=
  findIndex_from p l 0%Z.

Definition decimal (n : Z) : string := NilZero.string_of_uint (N.to_uint (Z.to_N n)).

(** [Number.prototype.toFixed(1)] in its fixed-notation branch: with [n] the
    integer for which [n / 10] is closest to [|x|] (the larger one on a tie),
    the digits of [n] with a point before the last one, and a minus sign for
    [x < 0]. *)
Definition tenths (x : Q) : Z := Qfloor (Qabs x * 10 + (1 # 2)).
Definition sign_of (x : Q) : string := if Qlt_bool x 0 then "-" else "".
Definition fixed1 (n : Z) : string :=
  (decimal (n / 10) ++ "." ++ decimal (n mod 10))%string.
Definition toFixed1 (x : Q) : string :=
  (sign_of x ++ fixed1 (tenths x))%string.

(** ** [LotteryEngine] *)

Module LotteryEngine.

(** The functions of this module are the engine's read in exact arithmetic.
    Which pools throw, that the result is an entry of the pool, and which
    entries a draw excludes do not depend on rounding; which entry a draw
    near the end of an interval selects and which digit a percentage near a
    tie prints do, and for those the module [Double] below is the
    reference. *)

(** [items.reduce((sum, item) => sum + item.weight, 0)] *)
Definition totalWeight (items : list SlotItem) : Q :=
  fold_left (fun sum item => sum + weight item) items 0.

(** The [for (const item of items)] loop of [weightedRandomSelect]:
    [Some item] when the loop returns [item], [None] when it runs off the
    end of the list. *)
Fixpoint select_loop (random : Q) (items : list SlotItem) : option SlotItem :=
  match items with
  | [] => None
  | item :: rest =>
      let random := random - weight item in
      if Qle_bool random 0 then Some item else select_loop random rest
  end.

Definition weightedRandomSelect (rnd : Q) (items : list SlotItem)
  : Completion (option SlotItem) :=
  if (length items =? 0)%nat then Throw (MkError msg_items_empty) else
  let totalWeight := totalWeight items in
  if Qle_bool totalWeight 0 then Throw (MkError msg_total_weight) else
  let random := rnd * totalWeight in
  match select_loop random items with
  | Some item => Return (Some item)
  | None => Return (nth_error items (length items - 1))
  end.

(** The pool [antiRepeatRandomSelect] hands to [weightedRandomSelect] once
    the pool is longer than [avoidRecentCount]. *)
Definition targetItems (items : list SlotItem) (recentResults : list string)
    (avoidRecentCount : Z) : list SlotItem :=
  let recentIds := slice0 recentResults avoidRecentCount in
  let availableItems :=
    filter (fun item => negb (includes recentIds (id item))) items in
  if (0 <? length availableItems)%nat then availableItems else items.

Definition antiRepeatRandomSelect (rnd : Q) (items : list SlotItem)
    (recentResults : list string) (avoidRecentCount : Z)
  : Completion (option SlotItem) :=
  if (length items =? 0)%nat then Throw (MkError msg_items_empty) else
  if (Z.of_nat (length items) <=? avoidRecentCount)%Z
  then weightedRandomSelect rnd items
  else weightedRandomSelect rnd (targetItems items recentResults avoidRecentCount).

(** The number returned, and what was written with [console.warn]. *)
Definition calculateRotationAngle (rnd : Q) (items : list SlotItem)
    (selectedItem : SlotItem) (baseRotations : Q) : Q * list string :=
  if (length items =? 0)%nat then (0, []) else
  let selectedIndex :=
    findIndex (fun item => String.eqb (id item) (id selectedItem)) items in
  if (selectedIndex =? -1)%Z then (baseRotations * 360, [msg_not_in_wheel]) else
  let anglePerItem := 360 / inject_Z (Z.of_nat (length items)) in
  let targetAngle := inject_Z selectedIndex * anglePerItem in
  let randomOffset := (rnd - 0.5) * anglePerItem * 0.8 in
  let totalAngle := baseRotations * 360 + (360 - targetAngle) + randomOffset in
  (totalAngle, []).

Record ProbabilityInfo := {
  info_id : string;
  info_text : string;
  info_weight : Q;
  probability : Q;
  probabilityText : string
}.

Definition calculateProbabilities (items : list SlotItem) : list ProbabilityInfo :=
  if (length items =? 0)%nat then [] else
  let totalWeight := totalWeight items in
  map (fun item =>
         {| info_id := id item;
            info_text := text item;
            info_weight := weight item;
            probability :=
              if Qlt_bool 0 totalWeight then (weight item / totalWeight) * 100 else 0;
            probabilityText :=
              if Qlt_bool 0 totalWeight
              then (toFixed1 ((weight item / totalWeight) * 100) ++ "%")%string
              else "0%"%string |})
      items.

End LotteryEngine.

(** ** [HistoryStorage] over the browser's key-value store *)

Module HistoryStorage.

(** [localStorage] restricted to the history key: what
    [StorageManager.load(STORAGE_KEYS.HISTORY_RECORDS, [])] parses back, and
    [None] while nothing was saved.  Saving is taken to succeed (the
    quota error [StorageManager.save] swallows is not modelled). *)
Definition Storage := option (list HistoryRecord).

Definition getRecords (st : Storage) : list HistoryRecord :=
  match st with
  | Some stored => stored
  | None => []
  end.

Definition saveRecords (records : list HistoryRecord) (st : Storage) : Storage :=
  Some records.

(** [records.unshift(record)], then [records.splice(100)] when more than
    100 records are left. *)
Definition addRecord (record : HistoryRecord) (st : Storage) : Storage :=
  let records := getRecords st in
  let records := record :: records in
  let records :=
    if (100 <? length records)%nat then firstn 100 records else records in
  saveRecords records st.

Definition clearRecords (st : Storage) : Storage := saveRecords [] st.

End HistoryStorage.

(** ** [WheelAnimationController] *)

(** The arithmetic the controller performs on angles and times.  No law is
    assumed of it: the controller's control flow depends on numbers only
    through [lt progress one]. *)
Class Number (num : Type) := {
  zero : num;
  one : num;
  add : num -> num -> num;
  sub : num -> num -> num;
  mul : num -> num -> num;
  div : num -> num -> num;
  min : num -> num -> num;
  lt : num -> num -> bool
}.

#[export] Instance Q_Number : Number Q := {|
  zero := 0;
  one := 1;
  add := Qplus;
  sub := Qminus;
  mul := Qmult;
  div := Qdiv;
  min := Qmin;
  lt := Qlt_bool
|}.

Module WheelAnimationController.

Section Controller.

Context {num : Type} `{Number num}.

(** The value of [element.style.transform]: what the page gave it, or the
    [rotate(<deg>deg)] the controller wrote. *)
Inductive Transform :=
| initial_transform
| rotate (deg : num).

Record HTMLElement := { style_transform : Transform }.

(** The fields of the controller object. *)
Record Controller := {
  element : option HTMLElement;
  isSpinning : bool;
  currentRotation : num;
  animationId : option Z
}.

(** The closure [animate] of one call of [spin]: the constants it captured,
    and the promise its [resolve] settles. *)
Record Animation := {
  startTime : num;
  startRotation : num;
  totalRotation : num;
  duration : num;
  easing : num -> num;
  promise : nat
}.

(** The controller together with the host: the frame callbacks registered
    with [requestAnimationFrame] and not yet run or cancelled, the next
    handle the host hands out, the number of promises of started spins, and
    the promises fulfilled so far. *)
Record World := {
  this : Controller;
  frames : list (Z * Animation);
  nextHandle : Z;
  started : nat;
  fulfilled : list nat
}.

Definition set_this (c : Controller) (w : World) : World :=
  {| this := c; frames := frames w; nextHandle := nextHandle w;
     started := started w; fulfilled := fulfilled w |}.

Definition set_isSpinning (b : bool) (c : Controller) : Controller :=
  {| element := element c; isSpinning := b;
     currentRotation := currentRotation c; animationId := animationId c |}.

Definition set_currentRotation (x : num) (c : Controller) : Controller :=
  {| element := element c; isSpinning := isSpinning c;
     currentRotation := x; animationId := animationId c |}.

Definition set_animationId (h : option Z) (c : Controller) : Controller :=
  {| element := element c; isSpinning := isSpinning c;
     currentRotation := currentRotation c; animationId := h |}.

(** [if (this.element) this.element.style.transform = t] *)
Definition set_transform (t : Transform) (c : Controller) : Controller :=
  match element c with
  | Some _ =>
      {| element := Some {| style_transform := t |}; isSpinning := isSpinning c;
         currentRotation := currentRotation c; animationId := animationId c |}
  | None => c
  end.

(** [new WheelAnimationController(element)] on a fresh page. *)
Definition create (el : option HTMLElement) : World :=
  {| this := {| element := el; isSpinning := false;
                currentRotation := zero; animationId := None |};
     frames := []; nextHandle := 1%Z; started := 0%nat; fulfilled := [] |}.

(** [requestAnimationFrame(animate)]: the host queues the callback and
    returns a fresh handle. *)
Definition requestAnimationFrame (a : Animation) (w : World) : Z * World :=
  (nextHandle w,
   {| this := this w; frames := frames w ++ [(nextHandle w, a)];
      nextHandle := (nextHandle w + 1)%Z;
      started := started w; fulfilled := fulfilled w |}).

Definition cancelAnimationFrame (h : Z) (w : World) : World :=
  {| this := this w;
     frames := filter (fun f => negb (fst f =? h)%Z) (frames w);
     nextHandle := nextHandle w;
     started := started w; fulfilled := fulfilled w |}.

(** What [spin] hands back: a promise already rejected, or the pending
    promise of a started spin. *)
Inductive SpinPromise :=
| Rejected (e : Error)
| Pending (p : nat).

(** [spin(targetAngle, duration, easing)], called when [Date.now()] is
    [now]. *)
Definition spin (now targetAngle duration_ : num) (easing_ : num -> num)
    (w : World) : SpinPromise * World :=
  match element (this w) with
  | None => (Rejected (MkError msg_no_element), w)
  | Some _ =>
      if isSpinning (this w) then (Rejected (MkError msg_already_spinning), w) else
      let p := started w in
      let a := {| startTime := now; startRotation := currentRotation (this w);
                  totalRotation := targetAngle; duration := duration_;
                  easing := easing_; promise := p |} in
      let w := {| this := set_isSpinning true (this w); frames := frames w;
                  nextHandle := nextHandle w; started := S p;
                  fulfilled := fulfilled w |} in
      let (h, w) := requestAnimationFrame a w in
      (Pending p, set_this (set_animationId (Some h) (this w)) w)
  end.

(** One run of the frame callback [animate], when [Date.now()] is [now]. *)
Definition animate (a : Animation) (now : num) (w : World) : World :=
  let elapsed := sub now (startTime a) in
  let progress := min (div elapsed (duration a)) one in
  let easedProgress := easing a progress in
  let rotation := add (startRotation a) (mul (totalRotation a) easedProgress) in
  let w := set_this (set_currentRotation rotation (this w)) w in
  let w := set_this (set_transform (rotate rotation) (this w)) w in
  if lt progress one then
    let (h, w) := requestAnimationFrame a w in
    set_this (set_animationId (Some h) (this w)) w
  else
    {| this := set_animationId None (set_isSpinning false (this w));
       frames := frames w; nextHandle := nextHandle w; started := started w;
       fulfilled := promise a :: fulfilled w |}.

(** The host renders a frame: the callbacks queued before it run once, in
    order; what they queue waits for the next frame. *)
Definition frame (now : num) (w : World) : World :=
  fold_left (fun w f => animate (snd f) now w) (frames w)
    {| this := this w; frames := []; nextHandle := nextHandle w;
       started := started w; fulfilled := fulfilled w |}.

(** [if (this.animationId)]: a handle that is neither [null] nor [0]. *)
Definition truthy (h : option Z) : bool :=
  match h with
  | Some n => negb (n =? 0)%Z
  | None => false
  end.

Definition stop (w : World) : World :=
  let w :=
    match animationId (this w) with
    | Some h =>
        if truthy (Some h)
        then set_this (set_animationId None (this w)) (cancelAnimationFrame h w)
        else w
    | None => w
    end in
  set_this (set_isSpinning false (this w)) w.

(** [this.stop()], then [currentRotation = 0] and, with an element,
    [rotate(0deg)]. *)
Definition reset (w : World) : World :=
  let w := stop w in
  let w := set_this (set_currentRotation zero (this w)) w in
  set_this (set_transform (rotate zero) (this w)) w.

Definition getState (w : World) : bool * num :=
  (isSpinning (this w), currentRotation (this w)).

(** [easeOutCubic]: [1 - Math.pow(1 - t, 3)]. *)
Definition easeOutCubic (t : num) : num :=
  let u := sub one t in sub one (mul (mul u u) u).

(** What can happen to a controller: calls of its methods and frames of the
    host. *)
Inductive Event :=
| CallSpin (now targetAngle duration_ : num) (easing_ : num -> num)
| HostFrame (now : num)
| CallStop
| CallReset.

Definition step (w : World) (ev : Event) : World :=
  match ev with
  | CallSpin now targetAngle duration_ easing_ =>
      snd (spin now targetAngle duration_ easing_ w)
  | HostFrame now => frame now w
  | CallStop => stop w
  | CallReset => reset w
  end.

(** The world after a history of events on a controller made for [el]. *)
Definition run (el : option HTMLElement) (history : list Event) : World :=
  fold_left step history (create el).

(** The shape every world of a run has: a spinning controller has its
    element and exactly one queued frame, whose handle it holds; an idle one
    holds no handle and nothing is queued. *)
Definition consistent (w : World) : Prop :=
  (0 < nextHandle w)%Z /\
  if isSpinning (this w)
  then element (this w) <> None /\
       exists h a, animationId (this w) = Some h /\ (0 < h < nextHandle w)%Z /\
                   frames w = [(h, a)]
  else animationId (this w) = None /\ frames w = [].

End Controller.

Arguments Transform num : clear implicits.
Arguments HTMLElement num : clear implicits.
Arguments Controller num : clear implicits.
Arguments Animation num : clear implicits.
Arguments World num : clear implicits.
Arguments Event num : clear implicits.

End WheelAnimationController.

(** ** Vocabulary of the specification *)

(** The candidate pool of a draw: the pool itself when it is no longer than
    [avoidRecentCount], otherwise [targetItems]. *)
Definition candidatePool (items : list SlotItem) (recentResults : list string)
    (avoidRecentCount : Z) : list SlotItem :=
  if (Z.of_nat (length items) <=? avoidRecentCount)%Z then items
  else LotteryEngine.targetItems items recentResults avoidRecentCount.

(** The chosen entry sits at index [i] of the pool, entries being told apart
    by [id]: the entry at [i] carries the chosen id and no earlier one does. *)
Definition chosen_at (items : list SlotItem) (selectedItem : SlotItem) (i : nat)
  : Prop :=
  (exists item, nth_error items i = Some item /\ id item = id selectedItem) /\
  (forall j item, (j < i)%nat -> nth_error items j = Some item ->
                  id item <> id selectedItem).


(** [DEFAULT_ITEMS] of [types.ts]: six built-in entries of weight 1. *)
Definition default_item (ident label : string) : SlotItem :=
  {| id := ident; type := text_only; text := label; imageUrl := None;
     weight := 1; isDefault := true |}.
Definition DEFAULT_ITEMS : list SlotItem :=
  [ default_item "default_1" "大吉大利";
    default_item "default_2" "再来一次";
    default_item "default_3" "恭喜发财";
    default_item "default_4" "心想事成";
    default_item "default_5" "万事如意";
    default_item "default_6" "好运连连" ].

(** The sample pools used below. *)
Definition labelled (ident label : string) (w : Q) : SlotItem :=
  {| id := ident; type := text_only; text := label; imageUrl := None;
     weight := w; isDefault := false |}.
Definition entry (name : string) (w : Q) : SlotItem := labelled name name w.

(** ** The rest of [LotteryEngine] *)

(** [array[k]] for an integer [k]: [undefined] outside the array. *)
Definition array_get {A : Type} (l : list A) (k : Z) : option A :=
  if (k <? 0)%Z then None else nth_error l (Z.to_nat k).

(** [array[k] = x] for an index inside the array. *)
Fixpoint array_set {A : Type} (l : list A) (k : nat) (x : A) : list A :=
  match l, k with
  | [], _ => []
  | _ :: rest, O => x :: rest
  | y :: rest, S k => y :: array_set rest k x
  end.

(** An integer in a template literal. *)
Definition show_int (n : Z) : string :=
  if (n <? 0)%Z then ("-" ++ decimal (- n))%string else decimal n.

(** [simpleRandomSelect] in exact arithmetic: the floor is taken of the
    exact product. *)
Definition simpleRandomSelect (rnd : Q) (items : list SlotItem)
  : Completion (option SlotItem) :=
  if (length items =? 0)%nat then Throw (MkError msg_items_empty) else
  let randomIndex := Qfloor (rnd * inject_Z (Z.of_nat (length items))) in
  Return (array_get items randomIndex).

(** [!s] for a string, and for an optional string. *)
Definition no_string (s : string) : bool := String.eqb s "".
Definition no_optional_string (s : option string) : bool :=
  match s with
  | Some s => no_string s
  | None => true
  end.

(** [new Set(l).size] for strings: the number of distinct elements. *)
Definition set_size (l : list string) : nat := length (nodup string_dec l).

Definition msg_few_items : string := "转盘项目数量少于2个，建议增加更多项目".
Definition msg_many_items : string := "转盘项目数量超过20个，可能影响显示效果".
Definition msg_duplicate_id : string := "存在重复的项目ID".
Definition msg_duplicate_text : string := "存在重复的项目文案".
Definition msg_item (index : nat) (what : string) : string :=
  ("第" ++ show_int (Z.of_nat index + 1) ++ what)%string.

Record ValidationResult := {
  isValid : bool;
  errors : list string;
  warnings : list string
}.

Section Validation.

(** [String.prototype.trim], left to the host. *)
Variable trim : string -> string.

(** What the [forEach] callback of [validateWheelConfig] pushes for one
    item. *)
Definition item_errors (item : SlotItem) (index : nat) : list string :=
  (if no_string (id item) then [msg_item index "个项目缺少ID"] else [])
  ++ (if no_string (text item) || String.eqb (trim (text item)) ""
      then [msg_item index "个项目缺少文案"] else [])
  ++ (if Qle_bool (weight item) 0
      then [msg_item index "个项目权重必须大于0"] else []).

Definition item_warnings (item : SlotItem) (index : nat) : list string :=
  match type item with
  | image_text =>
      if no_optional_string (imageUrl item)
      then [msg_item index "个项目类型为图片+文案但缺少图片URL"] else []
  | text_only => []
  end.

(** [items.forEach((item, index) => ...)] collecting what [f] pushes. *)
Fixpoint forEach_from {A : Type} (f : SlotItem -> nat -> list A)
    (items : list SlotItem) (index : nat) : list A :=
  match items with
  | [] => []
  | item :: rest => f item index ++ forEach_from f rest (S index)
  end.

Definition validateWheelConfig (items : list SlotItem) : ValidationResult :=
  if (length items =? 0)%nat
  then {| isValid := false; errors := [msg_items_empty]; warnings := [] |}
  else
    let warnings :=
      (if (length items <? 2)%nat then [msg_few_items] else [])
      ++ (if (20 <? length items)%nat then [msg_many_items] else []) in
    let totalWeight := LotteryEngine.totalWeight items in
    let errors := if Qle_bool totalWeight 0 then [msg_total_weight] else [] in
    let errors := errors ++ forEach_from item_errors items 0 in
    let warnings := warnings ++ forEach_from item_warnings items 0 in
    let ids := map id items in
    let errors :=
      errors ++ (if (length ids =? set_size ids)%nat then [] else [msg_duplicate_id]) in
    let texts := map text items in
    let warnings :=
      warnings
      ++ (if (length texts =? set_size texts)%nat then [] else [msg_duplicate_text]) in
    {| isValid := (length errors =? 0)%nat; errors := errors; warnings := warnings |}.

End Validation.

(** [createHistoryRecord]: [now] is [Date.now()], [suffix] is
    [Math.random().toString(36).substr(2, 9)] and [iso] is
    [new Date().toISOString()]. *)
Definition createHistoryRecord (now : Z) (suffix iso : string)
    (selectedItem : SlotItem) : HistoryRecord :=
  {| recordId := ("history_" ++ show_int now ++ "_" ++ suffix)%string;
     itemId := id selectedItem;
     timestamp := iso;
     result := text selectedItem |}.

(** ** The [SlotMachine] component's draw handlers *)

Module SlotMachine.

(** The [useState] cells of the component. *)
Record State := {
  selectedItem : option SlotItem;
  lastResult : option SlotItem;
  showResult : bool;
  spinCount : nat;
  recentResults : list string
}.

(** The cells before the mount effect. *)
Definition initial : State :=
  {| selectedItem := None; lastResult := None; showResult := false;
     spinCount := 0%nat; recentResults := [] |}.

(** The mount effect: the three most recent stored results. *)
Definition loadHistory (st : State) (storage : HistoryStorage.Storage) : State :=
  let records := HistoryStorage.getRecords storage in
  {| selectedItem := selectedItem st; lastResult := lastResult st;
     showResult := showResult st;
     spinCount := length records;
     recentResults := map itemId (slice0 records 3) |}.

(** What a handler does besides updating the cells: the calls of the
    [onSpin] prop and the lines written with [console.error]. *)
Record Effects := {
  onSpin : list (option SlotItem);
  console_error : list (string * Error)
}.

Definition handleLeverPull (rnd : Q) (isSpinning : bool) (items : list SlotItem)
    (st : State) : State * Effects :=
  if isSpinning || (length items =? 0)%nat
  then (st, {| onSpin := []; console_error := [] |})
  else
    match LotteryEngine.antiRepeatRandomSelect rnd items (recentResults st) 2 with
    | Return drawn =>
        ({| selectedItem := drawn; lastResult := lastResult st;
            showResult := false; spinCount := spinCount st;
            recentResults := recentResults st |},
         {| onSpin := [drawn]; console_error := [] |})
    | Throw error =>
        (st, {| onSpin := []; console_error := [("抽取失败:"%string, error)] |})
    end.

Definition handleSpinComplete (now : Z) (suffix iso : string) (drawn : SlotItem)
    (st : State) (storage : HistoryStorage.Storage)
  : State * HistoryStorage.Storage :=
  let record := createHistoryRecord now suffix iso drawn in
  ({| selectedItem := selectedItem st; lastResult := Some drawn;
      showResult := true; spinCount := S (spinCount st);
      recentResults := id drawn :: slice0 (recentResults st) 2 |},
   HistoryStorage.addRecord record storage).

End SlotMachine.

(** ** [localStorage] and the other storage managers *)

Record AppSettings := {
  animationDuration : Q;
  soundEnabled : bool;
  vibrationEnabled : bool
}.

Record UiState := {
  configModalOpen : bool;
  historyModalOpen : bool
}.

(** The [id] field of the configuration is [configId] here. *)
Record AppConfig := {
  configId : string;
  activeItems : list string;
  currentTheme : string;
  settings : AppSettings;
  uiState : UiState
}.

Definition DEFAULT_APP_CONFIG : AppConfig :=
  {| configId := "default_config";
     activeItems := map id DEFAULT_ITEMS;
     currentTheme := "classic";
     settings := {| animationDuration := 3000; soundEnabled := true;
                    vibrationEnabled := true |};
     uiState := {| configModalOpen := false; historyModalOpen := false |} |}.

(** [Partial<AppConfig>]: [None] for a key the object does not have. *)
Record PartialAppConfig := {
  new_configId : option string;
  new_activeItems : option (list string);
  new_currentTheme : option string;
  new_settings : option AppSettings;
  new_uiState : option UiState
}.

(** The keys of [localStorage] the managers use, each holding what
    [JSON.parse] gives back for the value last saved, [None] while the key
    is absent.  As for the history key, saving is taken to succeed. *)
Record LocalStorage := {
  slot_items : option (list SlotItem);
  history_records : HistoryStorage.Storage;
  app_config : option AppConfig;
  custom_items : option (list SlotItem);
  current_theme : option string;
  app_initialized : option bool;
  data_version : option string
}.

(** [StorageManager.load] on one key. *)
Definition load {T : Type} (stored : option T) (defaultValue : T) : T :=
  match stored with
  | Some value => value
  | None => defaultValue
  end.

Definition save_slot_items (v : list SlotItem) (s : LocalStorage) : LocalStorage :=
  {| slot_items := Some v; history_records := history_records s;
     app_config := app_config s; custom_items := custom_items s;
     current_theme := current_theme s; app_initialized := app_initialized s;
     data_version := data_version s |}.

Definition save_history_records (v : list HistoryRecord) (s : LocalStorage)
  : LocalStorage :=
  {| slot_items := slot_items s;
     history_records := HistoryStorage.saveRecords v (history_records s);
     app_config := app_config s; custom_items := custom_items s;
     current_theme := current_theme s; app_initialized := app_initialized s;
     data_version := data_version s |}.

Definition save_app_config (v : AppConfig) (s : LocalStorage) : LocalStorage :=
  {| slot_items := slot_items s; history_records := history_records s;
     app_config := Some v; custom_items := custom_items s;
     current_theme := current_theme s; app_initialized := app_initialized s;
     data_version := data_version s |}.

Definition save_custom_items (v : list SlotItem) (s : LocalStorage) : LocalStorage :=
  {| slot_items := slot_items s; history_records := history_records s;
     app_config := app_config s; custom_items := Some v;
     current_theme := current_theme s; app_initialized := app_initialized s;
     data_version := data_version s |}.

Definition save_current_theme (v : string) (s : LocalStorage) : LocalStorage :=
  {| slot_items := slot_items s; history_records := history_records s;
     app_config := app_config s; custom_items := custom_items s;
     current_theme := Some v; app_initialized := app_initialized s;
     data_version := data_version s |}.

Definition save_app_initialized (v : bool) (s : LocalStorage) : LocalStorage :=
  {| slot_items := slot_items s; history_records := history_records s;
     app_config := app_config s; custom_items := custom_items s;
     current_theme := current_theme s; app_initialized := Some v;
     data_version := data_version s |}.

Definition save_data_version (v : string) (s : LocalStorage) : LocalStorage :=
  {| slot_items := slot_items s; history_records := history_records s;
     app_config := app_config s; custom_items := custom_items s;
     current_theme := current_theme s; app_initialized := app_initialized s;
     data_version := Some v |}.

Module SlotItemStorage.

Definition getItems (s : LocalStorage) : list SlotItem :=
  let defaultItems := load (slot_items s) DEFAULT_ITEMS in
  let customItems := load (custom_items s) [] in
  defaultItems ++ customItems.

Definition saveCustomItems (items : list SlotItem) (s : LocalStorage)
  : LocalStorage := save_custom_items items s.

Definition getCustomItems (s : LocalStorage) : list SlotItem :=
  load (custom_items s) [].

(** [customItems.push(item)] *)
Definition addCustomItem (item : SlotItem) (s : LocalStorage) : LocalStorage :=
  let customItems := getCustomItems s in
  let customItems := customItems ++ [item] in
  saveCustomItems customItems s.

Definition removeCustomItem (itemId : string) (s : LocalStorage) : LocalStorage :=
  let customItems := getCustomItems s in
  let filteredItems :=
    filter (fun item => negb (String.eqb (id item) itemId)) customItems in
  saveCustomItems filteredItems s.

Definition updateCustomItem (updatedItem : SlotItem) (s : LocalStorage)
  : LocalStorage :=
  let customItems := getCustomItems s in
  let index :=
    findIndex (fun item => String.eqb (id item) (id updatedItem)) customItems in
  if negb (index =? -1)%Z
  then saveCustomItems (array_set customItems (Z.to_nat index) updatedItem) s
  else s.

End SlotItemStorage.

Module ConfigStorage.

Definition getConfig (s : LocalStorage) : AppConfig :=
  load (app_config s) DEFAULT_APP_CONFIG.

Definition saveConfig (config : AppConfig) (s : LocalStorage) : LocalStorage :=
  save_app_config config s.

(** [{ ...currentConfig, ...updates }] *)
Definition spread (currentConfig : AppConfig) (updates : PartialAppConfig)
  : AppConfig :=
  {| configId := load (new_configId updates) (configId currentConfig);
     activeItems := load (new_activeItems updates) (activeItems currentConfig);
     currentTheme := load (new_currentTheme updates) (currentTheme currentConfig);
     settings := load (new_settings updates) (settings currentConfig);
     uiState := load (new_uiState updates) (uiState currentConfig) |}.

Definition updateConfig (updates : PartialAppConfig) (s : LocalStorage)
  : LocalStorage :=
  let currentConfig := getConfig s in
  let newConfig := spread currentConfig updates in
  saveConfig newConfig s.

Definition getCurrentTheme (s : LocalStorage) : string :=
  load (current_theme s) "classic"%string.

Definition setCurrentTheme (themeId : string) (s : LocalStorage) : LocalStorage :=
  let s := save_current_theme themeId s in
  updateConfig {| new_configId := None; new_activeItems := None;
                  new_currentTheme := Some themeId; new_settings := None;
                  new_uiState := None |} s.

Definition resetToDefault (s : LocalStorage) : LocalStorage :=
  let s := saveConfig DEFAULT_APP_CONFIG s in
  save_current_theme "classic" s.

End ConfigStorage.

Module DataMigration.

(** The store after the call, and the lines written with [console.log]. *)
Definition initializeApp (s : LocalStorage) : LocalStorage * list string :=
  let isFirstRun := negb (load (app_initialized s) false) in
  if isFirstRun then
    let s := save_slot_items DEFAULT_ITEMS s in
    let s := ConfigStorage.saveConfig DEFAULT_APP_CONFIG s in
    let s := save_history_records [] s in
    let s := SlotItemStorage.saveCustomItems [] s in
    let s := save_app_initialized true s in
    (s, ["应用数据初始化完成"%string])
  else (s, []).

Definition checkAndMigrate (s : LocalStorage) : LocalStorage * list string :=
  let currentVersion := "1.0.0"%string in
  let storedVersion := load (data_version s) "0.0.0"%string in
  if negb (String.eqb storedVersion currentVersion)
  then (save_data_version currentVersion s,
        [("数据版本从 " ++ storedVersion ++ " 升级到 " ++ currentVersion)%string])
  else (s, []).

End DataMigration.

(** ** The arithmetic of the engine on IEEE doubles *)

(** A JavaScript [number] is a binary64 double; Rocq's primitive [float] is
    the same format with the same round-to-nearest operations, and a decimal
    literal denotes the nearest double, as in JavaScript.  This module
    repeats, on doubles, the functions of [LotteryEngine] whose result
    depends on how the arithmetic rounds. *)
Module Double.

Record SlotItem := {
  id : string;
  type : SlotItemType;
  text : string;
  imageUrl : option string;
  weight : float;
  isDefault : bool
}.

(** [items.reduce((sum, item) => sum + item.weight, 0)] *)
Definition totalWeight (items : list SlotItem) : float :=
  fold_left (fun sum item => (sum + weight item)%float) items 0%float.

(** The [for (const item of items)] loop of [weightedRandomSelect]. *)
Fixpoint select_loop (random : float) (items : list SlotItem) : option SlotItem :=
  match items with
  | [] => None
  | item :: rest =>
      let random := (random - weight item)%float in
      if (random <=? 0)%float then Some item else select_loop random rest
  end.

Definition weightedRandomSelect (rnd : float) (items : list SlotItem)
  : Completion (option SlotItem) :=
  if (length items =? 0)%nat then Throw (MkError msg_items_empty) else
  let totalWeight := totalWeight items in
  if (totalWeight <=? 0)%float then Throw (MkError msg_total_weight) else
  let random := (rnd * totalWeight)%float in
  match select_loop random items with
  | Some item => Return (Some item)
  | None => Return (nth_error items (length items - 1))
  end.

(** [Number.prototype.toFixed(1)] on a double, step by step as the language
    defines it: a value that is not finite prints as [ToString] does; a
    minus sign is set aside; with [x] the exact magnitude, [n] is the
    integer for which [n / 10] is closest to [x] (the larger one on a tie),
    printed with a point before its last digit.  From [10^21] on the
    language switches to [ToString]'s exponent form, which is not modelled:
    the result is [None] there. *)
Definition toFixed1 (x : float) : option string :=
  match Prim2SF x with
  | S754_nan => Some "NaN"%string
  | S754_infinity false => Some "Infinity"%string
  | S754_infinity true => Some "-Infinity"%string
  | S754_zero _ => Some "0.0"%string
  | S754_finite s m e =>
      let x := inject_Z (Z.pos m) * 2 ^ e in
      if Qle_bool 1000000000000000000000 x then None
      else
        let n := Qfloor (x * 10 + (1 # 2)) in
        Some ((if s then "-" else "") ++ fixed1 n)%string
  end.

Record ProbabilityInfo := {
  info_id : string;
  info_text : string;
  info_weight : float;
  probability : float;
  probabilityText : option string
}.

Definition calculateProbabilities (items : list SlotItem) : list ProbabilityInfo :=
  if (length items =? 0)%nat then [] else
  let totalWeight := totalWeight items in
  map (fun item =>
         {| info_id := id item;
            info_text := text item;
            info_weight := weight item;
            probability :=
              if (0 <? totalWeight)%float
              then ((weight item / totalWeight) * 100)%float else 0%float;
            probabilityText :=
              if (0 <? totalWeight)%float
              then option_map (fun digits => (digits ++ "%")%string)
                     (toFixed1 ((weight item / totalWeight) * 100)%float)
              else Some "0%"%string |})
      items.

(** The remainder the loop holds after the first [k] entries: the draw with
    their weights subtracted one after the other. *)
Definition remainder (random : float) (items : list SlotItem) (k : nat) : float :=
  fold_left (fun r item => (r - weight item)%float) (firstn k items) random.

(** A sample entry. *)
Definition entry (name : string) (w : float) : SlotItem :=
  {| id := name; type := text_only; text := name; imageUrl := None;
     weight := w; isDefault := false |}.

End Double.

(** ** Vocabulary for the further properties *)


(** The world after further events. *)
Definition continue {num : Type} `{Number num}
    (w : WheelAnimationController.World num)
    (history : list (WheelAnimationController.Event num))
  : WheelAnimationController.World num :=
  fold_left WheelAnimationController.step history w.

(** Promises are fulfilled soundly in a world: none twice, only promises of
    started spins, and the promise of a queued frame is one of a started
    spin that is not fulfilled yet. *)
Definition promises_sound {num : Type}
    (w : WheelAnimationController.World num) : Prop :=
  NoDup (WheelAnimationController.fulfilled w)
  /\ (forall q, In q (WheelAnimationController.fulfilled w) ->
                (q < WheelAnimationController.started w)%nat)
  /\ (forall f, In f (WheelAnimationController.frames w) ->
                (WheelAnimationController.promise (snd f)
                 < WheelAnimationController.started w)%nat /\
                ~ In (WheelAnimationController.promise (snd f))
                     (WheelAnimationController.fulfilled w)).

(** The promise [p] of a started spin is abandoned in a world: it is not
    fulfilled and no queued frame would fulfil it. *)
Definition abandoned {num : Type} (p : nat)
    (w : WheelAnimationController.World num) : Prop :=
  (p < WheelAnimationController.started w)%nat
  /\ ~ In p (WheelAnimationController.fulfilled w)
  /\ (forall f, In f (WheelAnimationController.frames w) ->
                WheelAnimationController.promise (snd f) <> p).

(** [easeOutBack]: [1 + c3 * (t - 1)^3 + c1 * (t - 1)^2]. *)
Definition easeOutBack (t : Q) : Q :=
  let c1 := 1.70158 in
  let c3 := c1 + 1 in
  1 + c3 * ((t - 1) * (t - 1) * (t - 1)) + c1 * ((t - 1) * (t - 1)).

(** * Properties *)

Import LotteryEngine.

(** ** Comparisons and sums of weights *)

Lemma Qlt_bool_iff (x y : Q) : Qlt_bool x y = true <-> x < y.
Proof.
  unfold Qlt_bool. rewrite negb_true_iff. split.
  - intro E. apply Qnot_le_lt. intro Hle.
    apply Qle_bool_iff in Hle. congruence.
  - intro Hlt. destruct (Qle_bool y x) eqn:E; [|reflexivity].
    apply Qle_bool_iff in E. lra.
Qed.

Lemma Qle_bool_false (x y : Q) : Qle_bool x y = false -> y < x.
Proof.
  intro E. apply Qnot_le_lt. intro Hle.
  apply Qle_bool_iff in Hle. congruence.
Qed.

Lemma fold_weight_acc (items : list SlotItem) (acc : Q) :
  fold_left (fun sum item => sum + weight item) items acc
  == acc + totalWeight items.
Proof.
  unfold totalWeight. revert acc.
  induction items as [|a items IH]; intro acc; simpl.
  - ring.
  - rewrite (IH (acc + weight a)), (IH (0 + weight a)). ring.
Qed.

Lemma totalWeight_nil : totalWeight [] == 0.
Proof. reflexivity. Qed.

Lemma totalWeight_cons (a : SlotItem) (items : list SlotItem) :
  totalWeight (a :: items) == weight a + totalWeight items.
Proof.
  unfold totalWeight at 1. simpl. rewrite fold_weight_acc. ring.
Qed.

Lemma totalWeight_firstn_all (items : list SlotItem) :
  totalWeight (firstn (length items) items) == totalWeight items.
Proof. rewrite firstn_all. reflexivity. Qed.

Lemma totalWeight_positive (items : list SlotItem) :
  (forall item, In item items -> 0 < weight item) ->
  0 <= totalWeight items /\ (items <> [] -> 0 < totalWeight items).
Proof.
  induction items as [|a items IH]; intro Hpos.
  - split; [rewrite totalWeight_nil; lra | congruence].
  - assert (Ha : 0 < weight a) by (apply Hpos; left; reflexivity).
    destruct IH as [IH _]; [intros; apply Hpos; right; assumption|].
    rewrite totalWeight_cons. split; [|intros _]; lra.
Qed.

(** ** The selection loop *)

Lemma select_loop_some (items : list SlotItem) :
  forall (r : Q) (item : SlotItem),
    select_loop r items = Some item ->
    exists i : nat,
      nth_error items i = Some item /\
      r - totalWeight (firstn (S i) items) <= 0 /\
      (forall j, (j < i)%nat -> 0 < r - totalWeight (firstn (S j) items)).
Proof.
  induction items as [|a items IH]; intros r item Hsel; simpl in Hsel.
  - discriminate.
  - destruct (Qle_bool (r - weight a) 0) eqn:E.
    + injection Hsel as <-. exists 0%nat. simpl.
      apply Qle_bool_iff in E.
      repeat split.
      * rewrite totalWeight_cons, totalWeight_nil. lra.
      * intros j Hj. lia.
    + apply Qle_bool_false in E.
      destruct (IH _ _ Hsel) as (i & Hnth & Hle & Hbefore).
      exists (S i). repeat split.
      * exact Hnth.
      * change (firstn (S (S i)) (a :: items)) with (a :: firstn (S i) items).
        rewrite totalWeight_cons. lra.
      * intros [|j] Hj.
        -- simpl. rewrite totalWeight_cons, totalWeight_nil. lra.
        -- change (firstn (S (S j)) (a :: items)) with (a :: firstn (S j) items).
           rewrite totalWeight_cons.
           assert (Hj' : (j < i)%nat) by lia.
           specialize (Hbefore j Hj'). lra.
Qed.

Lemma select_loop_none (items : list SlotItem) :
  forall r : Q,
    select_loop r items = None ->
    forall j, (j < length items)%nat ->
              0 < r - totalWeight (firstn (S j) items).
Proof.
  induction items as [|a items IH]; intros r Hsel j Hj.
  - simpl in Hj. lia.
  - simpl in Hsel, Hj.
    destruct (Qle_bool (r - weight a) 0) eqn:E; [discriminate|].
    apply Qle_bool_false in E.
    change (firstn (S j) (a :: items)) with (a :: firstn j items).
    rewrite totalWeight_cons.
    destruct j as [|j].
    + change (firstn 0 items) with (@nil SlotItem).
      rewrite totalWeight_nil. lra.
    + assert (Hj' : (j < length items)%nat) by lia.
      pose proof (IH _ Hsel j Hj') as Hrest. lra.
Qed.

Lemma select_loop_falls_through (items : list SlotItem) (r : Q) :
  items <> [] -> select_loop r items = None -> totalWeight items < r.
Proof.
  intros Hne Hnone.
  assert (Hlen : (length items - 1 < length items)%nat).
  { destruct items; [congruence | simpl; lia]. }
  pose proof (select_loop_none items r Hnone _ Hlen) as Hlast.
  replace (S (length items - 1)) with (length items) in Hlast by lia.
  rewrite totalWeight_firstn_all in Hlast. lra.
Qed.

Lemma length_eqb_nonempty {A : Type} (l : list A) :
  l <> [] -> (length l =? 0)%nat = false.
Proof. destruct l; [congruence | reflexivity]. Qed.

Lemma last_index_defined {A : Type} (l : list A) :
  l <> [] -> exists x, nth_error l (length l - 1) = Some x /\ In x l.
Proof.
  intro Hne.
  destruct (nth_error l (length l - 1)) as [x|] eqn:E.
  - exists x. split; [reflexivity | eapply nth_error_In; eassumption].
  - apply nth_error_None in E. destruct l; [congruence | simpl in E; lia].
Qed.

(** A pool that passes both guards yields one of its entries, whatever the
    random draw. *)
Lemma weightedRandomSelect_member (rnd : Q) (items : list SlotItem) :
  items <> [] -> 0 < totalWeight items ->
  exists item, weightedRandomSelect rnd items = Return (Some item) /\ In item items.
Proof.
  intros Hne Hpos. unfold weightedRandomSelect.
  rewrite (length_eqb_nonempty _ Hne).
  destruct (Qle_bool (totalWeight items) 0) eqn:E.
  { apply Qle_bool_iff in E. lra. }
  destruct (select_loop (rnd * totalWeight items) items) as [item|] eqn:Hsel.
  - exists item. split; [reflexivity|].
    destruct (select_loop_some _ _ _ Hsel) as (i & Hnth & _).
    eapply nth_error_In; eassumption.
  - destruct (last_index_defined items Hne) as (x & Hx & Hin).
    exists x. rewrite Hx. split; [reflexivity | assumption].
Qed.


(** ** [weightedRandomSelect] *)

(** *** On doubles *)

Lemma positive_not_le_zero (x : float) :
  (0 <? x)%float = true -> (x <=? 0)%float = false.
Proof.
  rewrite ltb_spec, leb_spec. unfold SFltb, SFleb.
  change (Prim2SF 0) with (S754_zero false).
  destruct (Prim2SF x) as [s | s | | s m e]; simpl;
    try discriminate; try reflexivity;
    destruct s; (discriminate || reflexivity).
Qed.

Lemma remainder_cons (r : float) (a : Double.SlotItem)
    (items : list Double.SlotItem) (k : nat) :
  Double.remainder r (a :: items) (S k)
  = Double.remainder (r - Double.weight a)%float items k.
Proof. reflexivity. Qed.

Lemma double_select_loop_some (items : list Double.SlotItem) :
  forall (r : float) (item : Double.SlotItem),
    Double.select_loop r items = Some item ->
    exists i : nat,
      nth_error items i = Some item /\
      (Double.remainder r items (S i) <=? 0)%float = true /\
      (forall j, (j < i)%nat ->
                 (Double.remainder r items (S j) <=? 0)%float = false).
Proof.
  induction items as [|a items IH]; intros r item Hsel; simpl in Hsel.
  - discriminate.
  - destruct (r - Double.weight a <=? 0)%float eqn:E.
    + injection Hsel as <-. exists 0%nat.
      split; [reflexivity|]. split; [exact E | intros j Hj; lia].
    + destruct (IH _ _ Hsel) as (i & Hnth & Hle & Hbefore).
      exists (S i). split; [exact Hnth|]. split.
      * rewrite remainder_cons. exact Hle.
      * intros [|j] Hj; [exact E|].
        rewrite remainder_cons. apply Hbefore. lia.
Qed.

Lemma double_select_loop_none (items : list Double.SlotItem) :
  forall r : float,
    Double.select_loop r items = None ->
    forall j, (j < length items)%nat ->
              (Double.remainder r items (S j) <=? 0)%float = false.
Proof.
  induction items as [|a items IH]; intros r Hsel j Hj; simpl in Hsel, Hj.
  - lia.
  - destruct (r - Double.weight a <=? 0)%float eqn:E; [discriminate|].
    destruct j as [|j]; [exact E|].
    rewrite remainder_cons. apply (IH _ Hsel). lia.
Qed.

(** C1.  On doubles, for a non-empty pool of positive total weight and any
    random value, [weightedRandomSelect] returns an entry of the pool, never
    [undefined]: the first entry in pool order at which the remainder the
    loop computes (the draw [r = rnd * totalWeight] with the weights up to
    that entry subtracted one after the other, each result rounded) is
    [<= 0], and the last entry, by the fallback, when no computed remainder
    is [<= 0]. *)
Theorem weightedRandomSelect_first_computed_crossing :
  forall (rnd : float) (items : list Double.SlotItem),
    items <> [] -> (0 <? Double.totalWeight items)%float = true ->
    let r := (rnd * Double.totalWeight items)%float in
    exists item : Double.SlotItem,
      Double.weightedRandomSelect rnd items = Return (Some item) /\
      In item items /\
      ((Double.select_loop r items = Some item /\
        exists i : nat,
          nth_error items i = Some item /\
          (Double.remainder r items (S i) <=? 0)%float = true /\
          (forall j, (j < i)%nat ->
                     (Double.remainder r items (S j) <=? 0)%float = false))
       \/ (Double.select_loop r items = None /\
           nth_error items (length items - 1) = Some item /\
           (forall j, (j < length items)%nat ->
                      (Double.remainder r items (S j) <=? 0)%float = false))).
Proof.
  intros rnd items Hne Hpos r.
  unfold Double.weightedRandomSelect.
  rewrite (length_eqb_nonempty _ Hne), (positive_not_le_zero _ Hpos).
  fold r.
  destruct (Double.select_loop r items) as [item|] eqn:Hsel.
  - destruct (double_select_loop_some _ _ _ Hsel) as (i & Hnth & Hle & Hbefore).
    exists item. split; [reflexivity|].
    split; [eapply nth_error_In; exact Hnth|].
    left. split; [reflexivity|]. exists i. repeat split; assumption.
  - destruct (last_index_defined items Hne) as (item & Hlast & Hin).
    exists item. rewrite Hlast. split; [reflexivity|]. split; [exact Hin|].
    right. split; [reflexivity|]. split; [reflexivity|].
    apply double_select_loop_none. exact Hsel.
Qed.

Lemma weightedRandomSelect_first_computed_crossing_witness :
  let items := [Double.entry "a" 1.2; Double.entry "b" 3.5; Double.entry "c" 1.4] in
  let r := (0.5 * Double.totalWeight items)%float in
  exists item : Double.SlotItem,
    Double.weightedRandomSelect 0.5 items = Return (Some item) /\
    In item items /\
    ((Double.select_loop r items = Some item /\
      exists i : nat,
        nth_error items i = Some item /\
        (Double.remainder r items (S i) <=? 0)%float = true /\
        (forall j, (j < i)%nat ->
                   (Double.remainder r items (S j) <=? 0)%float = false))
     \/ (Double.select_loop r items = None /\
         nth_error items (length items - 1) = Some item /\
         (forall j, (j < length items)%nat ->
                    (Double.remainder r items (S j) <=? 0)%float = false))).
Proof.
  apply (weightedRandomSelect_first_computed_crossing 0.5%float
           [Double.entry "a" 1.2; Double.entry "b" 3.5; Double.entry "c" 1.4]).
  - discriminate.
  - vm_compute. reflexivity.
Defined.

(** The fallback is not confined to the upper boundary.  For the weights
    0.7, 2.3 and 0.2 the total is the double 3.2; the random value
    0.9999999999999999 gives the draw 3.1999999999999997, inside
    [[0, totalWeight)], and the three subtractions leave
    1.6653345369377348e-16, which is positive: the loop ends without a
    result and the last entry is returned by the fallback. *)
Lemma weightedRandomSelect_fallback_below_the_total :
  ~ (forall (rnd : float) (items : list Double.SlotItem),
        items <> [] -> (0 <? Double.totalWeight items)%float = true ->
        let r := (rnd * Double.totalWeight items)%float in
        (0 <=? r)%float = true -> (r <? Double.totalWeight items)%float = true ->
        exists (i : nat) (item : Double.SlotItem),
          Double.weightedRandomSelect rnd items = Return (Some item) /\
          Double.select_loop r items = Some item /\
          nth_error items i = Some item /\
          (Double.remainder r items (S i) <=? 0)%float = true /\
          (forall j, (j < i)%nat ->
                     (Double.remainder r items (S j) <=? 0)%float = false)).
Proof.
  intro Hclaim.
  destruct (Hclaim 0.9999999999999999%float
              [Double.entry "a" 0.7; Double.entry "b" 2.3; Double.entry "c" 0.2])
    as (i & item & _ & Hloop & _).
  - discriminate.
  - vm_compute. reflexivity.
  - vm_compute. reflexivity.
  - vm_compute. reflexivity.
  - vm_compute in Hloop. discriminate Hloop.
Qed.

Example weightedRandomSelect_rounded_draws :
  let six := map (fun name => Double.entry name 1)
                 ["a"; "b"; "c"; "d"; "e"; "f"]%string in
  Double.weightedRandomSelect 0.6666666666666667 six
  = Return (nth_error six 3)
  /\ Double.weightedRandomSelect 0.9999999999999999
       [Double.entry "a" 0.7; Double.entry "b" 2.3; Double.entry "c" 0.2]
     = Return (Some (Double.entry "c" 0.2))
  /\ Double.remainder (0.9999999999999999 * 3.2)
       [Double.entry "a" 0.7; Double.entry "b" 2.3; Double.entry "c" 0.2] 3
     = 1.6653345369377348e-16%float.
Proof. vm_compute. repeat split. Qed.

Example weightedRandomSelect_sample :
  weightedRandomSelect (1 # 2) [entry "a" 1; entry "b" 2; entry "c" 1]
  = Return (Some (entry "b" 2)).
Proof. reflexivity. Qed.

(** The draw hands the candidate pool to [weightedRandomSelect]. *)
Lemma antiRepeatRandomSelect_unfold (rnd : Q) (items : list SlotItem)
    (recentResults : list string) (avoidRecentCount : Z) :
  items <> [] ->
  antiRepeatRandomSelect rnd items recentResults avoidRecentCount
  = weightedRandomSelect rnd (candidatePool items recentResults avoidRecentCount).
Proof.
  intro Hne. unfold antiRepeatRandomSelect, candidatePool.
  rewrite (length_eqb_nonempty _ Hne).
  destruct (Z.of_nat (length items) <=? avoidRecentCount)%Z; reflexivity.
Qed.

Lemma targetItems_incl (items : list SlotItem) (recentResults : list string)
    (avoidRecentCount : Z) :
  incl (targetItems items recentResults avoidRecentCount) items.
Proof.
  unfold targetItems.
  destruct (0 <? length _)%nat.
  - intros x Hx. apply filter_In in Hx. tauto.
  - apply incl_refl.
Qed.

Lemma targetItems_nonempty (items : list SlotItem) (recentResults : list string)
    (avoidRecentCount : Z) :
  items <> [] -> targetItems items recentResults avoidRecentCount <> [].
Proof.
  intro Hne. unfold targetItems.
  destruct (0 <? length _)%nat eqn:E.
  - apply Nat.ltb_lt in E. intro Hnil. rewrite Hnil in E. simpl in E. lia.
  - exact Hne.
Qed.

Lemma candidatePool_incl (items : list SlotItem) (recentResults : list string)
    (avoidRecentCount : Z) :
  incl (candidatePool items recentResults avoidRecentCount) items.
Proof.
  unfold candidatePool.
  destruct (Z.of_nat (length items) <=? avoidRecentCount)%Z.
  - apply incl_refl.
  - apply targetItems_incl.
Qed.

Lemma candidatePool_nonempty (items : list SlotItem) (recentResults : list string)
    (avoidRecentCount : Z) :
  items <> [] -> candidatePool items recentResults avoidRecentCount <> [].
Proof.
  intro Hne. unfold candidatePool.
  destruct (Z.of_nat (length items) <=? avoidRecentCount)%Z.
  - exact Hne.
  - apply targetItems_nonempty. exact Hne.
Qed.




(** ** [antiRepeatRandomSelect] *)

Lemma includes_In (l : list string) (s : string) :
  includes l s = true <-> In s l.
Proof.
  unfold includes. rewrite existsb_exists. split.
  - intros (x & Hin & Heq). apply String.eqb_eq in Heq. subst. exact Hin.
  - intro Hin. exists s. split; [exact Hin | apply String.eqb_refl].
Qed.

Lemma slice0_nonneg {A : Type} (l : list A) (n : Z) :
  (0 <= n)%Z -> slice0 l n = firstn (Z.to_nat n) l.
Proof.
  intro Hn. unfold slice0.
  destruct (n <? 0)%Z eqn:E; [apply Z.ltb_lt in E; lia|].
  destruct (Z.le_gt_cases n (Z.of_nat (length l))) as [Hle | Hgt].
  - rewrite Z.min_l by exact Hle. reflexivity.
  - rewrite Z.min_r by lia. rewrite Nat2Z.id.
    rewrite firstn_all. symmetry. apply firstn_all2. lia.
Qed.

(** Pairwise distinct ids that all occur in [ids] are no more than [ids]. *)
Lemma distinct_ids_bounded (items : list SlotItem) (ids : list string) :
  NoDup (map id items) ->
  (forall item, In item items -> In (id item) ids) ->
  (length items <= length ids)%nat.
Proof.
  intros Hnodup Hall.
  rewrite <- (length_map id items).
  apply NoDup_incl_length; [exact Hnodup|].
  intros s Hs. apply in_map_iff in Hs as (item & <- & Hin). auto.
Qed.

(** With pairwise distinct ids, excluding fewer ids than the pool has
    entries leaves an entry. *)
Lemma filter_leaves_entry (items : list SlotItem) (ids : list string) :
  NoDup (map id items) ->
  (length ids < length items)%nat ->
  filter (fun item => negb (includes ids (id item))) items <> [].
Proof.
  intros Hnodup Hlen Hnil.
  assert (Hall : forall item, In item items -> In (id item) ids).
  { intros item Hin.
    destruct (includes ids (id item)) eqn:E; [apply includes_In; exact E|].
    assert (Hin' : In item (filter (fun item => negb (includes ids (id item))) items)).
    { apply filter_In. rewrite E. split; [exact Hin | reflexivity]. }
    rewrite Hnil in Hin'. destruct Hin'. }
  pose proof (distinct_ids_bounded items ids Hnodup Hall). lia.
Qed.

(** C2.  For a non-empty pool of positive weights and pairwise distinct ids
    that is longer than [avoidRecentCount], the draw returns an entry of the
    pool whose id is not among the first [avoidRecentCount] recent ids. *)
Theorem antiRepeatRandomSelect_avoids_recent :
  forall (rnd : Q) (items : list SlotItem) (recentResults : list string)
         (avoidRecentCount : Z),
    items <> [] ->
    (forall item, In item items -> 0 < weight item) ->
    NoDup (map id items) ->
    (avoidRecentCount < Z.of_nat (length items))%Z ->
    exists item,
      antiRepeatRandomSelect rnd items recentResults avoidRecentCount
      = Return (Some item) /\
      In item items /\
      ~ In (id item) (firstn (Z.to_nat avoidRecentCount) recentResults).
Proof.
  intros rnd items recentResults avoidRecentCount Hne Hweights Hnodup Hlen.
  rewrite antiRepeatRandomSelect_unfold by exact Hne.
  set (pool := candidatePool items recentResults avoidRecentCount).
  destruct (weightedRandomSelect_member rnd pool) as (item & Hret & Hin).
  { apply candidatePool_nonempty. exact Hne. }
  { apply totalWeight_positive.
    - intros x Hx. apply Hweights. eapply candidatePool_incl. exact Hx.
    - apply candidatePool_nonempty. exact Hne. }
  exists item. split; [exact Hret|].
  split; [eapply candidatePool_incl; exact Hin|].
  destruct (Z.lt_ge_cases avoidRecentCount 0) as [Hneg | Hnonneg].
  { destruct avoidRecentCount as [|p|p]; try lia. simpl. tauto. }
  unfold pool, candidatePool in Hin.
  destruct (Z.of_nat (length items) <=? avoidRecentCount)%Z eqn:E;
    [apply Z.leb_le in E; lia|].
  unfold targetItems in Hin.
  rewrite slice0_nonneg in Hin by exact Hnonneg.
  set (recentIds := firstn (Z.to_nat avoidRecentCount) recentResults) in *.
  assert (Hleft : filter (fun item => negb (includes recentIds (id item))) items
                  <> []).
  { apply filter_leaves_entry; [exact Hnodup|].
    unfold recentIds. rewrite length_firstn. lia. }
  destruct (0 <? length _)%nat eqn:Hany in Hin.
  - apply filter_In in Hin as [_ Hout].
    apply negb_true_iff in Hout. intro Hrecent.
    apply includes_In in Hrecent. congruence.
  - apply Nat.ltb_ge in Hany.
    destruct (filter _ items); [congruence | simpl in Hany; lia].
Qed.

Lemma antiRepeatRandomSelect_avoids_recent_witness :
  let items := [entry "a" 1; entry "b" 1; entry "c" 1] in
  exists item,
    antiRepeatRandomSelect (1 # 3) items ["a"%string] 2 = Return (Some item) /\
    In item items /\
    ~ In (id item) (firstn (Z.to_nat 2) ["a"%string]).
Proof.
  apply (antiRepeatRandomSelect_avoids_recent
           (1 # 3) [entry "a" 1; entry "b" 1; entry "c" 1] ["a"%string] 2).
  - discriminate.
  - intros item [<- | [<- | [<- | []]]]; reflexivity.
  - repeat constructor; simpl; intuition discriminate.
  - reflexivity.
Defined.

(** Without distinct ids the exclusion can empty the pool, and the draw then
    falls back to the whole pool: here both recent ids are excluded, nothing
    is left, and the entry returned carries the most recent id. *)
Lemma antiRepeatRandomSelect_repeats_on_shared_id :
  ~ (forall (rnd : Q) (items : list SlotItem) (recentResults : list string)
            (avoidRecentCount : Z),
        (forall item, In item items -> 0 < weight item) ->
        (avoidRecentCount < Z.of_nat (length items))%Z ->
        exists item,
          antiRepeatRandomSelect rnd items recentResults avoidRecentCount
          = Return (Some item) /\
          ~ In (id item) (firstn (Z.to_nat avoidRecentCount) recentResults)).
Proof.
  intro Hclaim.
  destruct (Hclaim 0 [labelled "a" "first" 1; labelled "a" "second" 1; entry "b" 1]
              ["a"%string; "b"%string] 2%Z) as (item & Hret & Hout).
  - intros item [<- | [<- | [<- | []]]]; reflexivity.
  - reflexivity.
  - vm_compute in Hret. injection Hret as <-.
    apply Hout. left. reflexivity.
Qed.

(** ** [calculateRotationAngle] *)

Lemma findIndex_from_found {A : Type} (p : A -> bool) (l : list A) :
  forall (k : Z) (i : nat),
    (exists x, nth_error l i = Some x /\ p x = true) ->
    (forall j y, (j < i)%nat -> nth_error l j = Some y -> p y = false) ->
    findIndex_from p l k = (k + Z.of_nat i)%Z.
Proof.
  induction l as [|x l IH]; intros k i (y & Hnth & Hy) Hbefore.
  - destruct i; discriminate.
  - destruct i as [|i]; simpl in *.
    + injection Hnth as ->. rewrite Hy. lia.
    + rewrite (Hbefore 0%nat x) by (reflexivity || lia).
      rewrite (IH (k + 1)%Z i).
      * lia.
      * exists y. split; assumption.
      * intros j z Hj Hz. apply (Hbefore (S j) z); [lia | exact Hz].
Qed.

Lemma findIndex_from_absent {A : Type} (p : A -> bool) (l : list A) :
  forall k : Z,
    (forall x, In x l -> p x = false) -> findIndex_from p l k = (-1)%Z.
Proof.
  induction l as [|x l IH]; intros k Hall; simpl.
  - reflexivity.
  - rewrite (Hall x) by (left; reflexivity).
    apply IH. intros y Hy. apply Hall. right. exact Hy.
Qed.

Lemma chosen_at_findIndex (items : list SlotItem) (selectedItem : SlotItem)
    (i : nat) :
  chosen_at items selectedItem i ->
  findIndex (fun item => String.eqb (id item) (id selectedItem)) items
  = Z.of_nat i.
Proof.
  intros [(item & Hnth & Hid) Hbefore]. unfold findIndex.
  rewrite (findIndex_from_found _ items 0%Z i).
  - lia.
  - exists item. split; [exact Hnth | apply String.eqb_eq; exact Hid].
  - intros j y Hj Hy. apply String.eqb_neq. eapply Hbefore; eassumption.
Qed.

(** With pairwise distinct ids, the index of the chosen entry is the only
    index that carries its id. *)
Lemma distinct_ids_chosen_at (items : list SlotItem) (selectedItem : SlotItem)
    (i : nat) :
  NoDup (map id items) ->
  nth_error items i = Some selectedItem ->
  chosen_at items selectedItem i.
Proof.
  intros Hnodup Hnth. split.
  - exists selectedItem. split; [exact Hnth | reflexivity].
  - intros j item Hj Hitem Hid.
    assert (Hi : nth_error (map id items) i = Some (id selectedItem))
      by (rewrite nth_error_map, Hnth; reflexivity).
    assert (Hj' : nth_error (map id items) j = Some (id selectedItem))
      by (rewrite nth_error_map, Hitem; simpl; rewrite Hid; reflexivity).
    assert (Hlt : (j < length (map id items))%nat)
      by (apply nth_error_Some; congruence).
    pose proof (proj1 (NoDup_nth_error (map id items)) Hnodup j i Hlt) as Heq.
    rewrite Hi, Hj' in Heq. specialize (Heq eq_refl). lia.
Qed.

Lemma sector_positive (n : nat) :
  (0 < n)%nat -> 0 < 360 / inject_Z (Z.of_nat n).
Proof.
  intro Hn. apply Qlt_shift_div_l.
  - unfold Qlt. simpl. lia.
  - lra.
Qed.

(** C4.  When the pool of [n] entries holds at index [i] an entry carrying
    the chosen id and no earlier entry carries that id (so in particular
    when the chosen entry is in the pool and ids are pairwise distinct),
    [calculateRotationAngle] returns in exact arithmetic, for every
    [baseRotations] (so for every [baseRotations >= 1]),
    [baseRotations * 360 + (360 - i * (360 / n)) + jitter] with
    [|jitter| <= 0.4 * (360 / n)], less than half a sector, and logs
    nothing; for six entries, [baseRotations = 5] and [i = 0] the result is
    within 24 degrees of 2160. *)
Theorem calculateRotationAngle_lands_in_sector :
  forall (rnd : Q) (items : list SlotItem) (selectedItem : SlotItem)
         (baseRotations : Q) (i : nat),
    0 <= rnd -> rnd < 1 ->
    chosen_at items selectedItem i ->
    let sector := 360 / inject_Z (Z.of_nat (length items)) in
    let angle := fst (calculateRotationAngle rnd items selectedItem baseRotations) in
    (exists jitter : Q,
        angle == baseRotations * 360 + (360 - inject_Z (Z.of_nat i) * sector) + jitter /\
        Qabs jitter <= 0.4 * sector /\
        Qabs jitter < sector / 2)
    /\ snd (calculateRotationAngle rnd items selectedItem baseRotations) = []
    /\ (length items = 6%nat -> i = 0%nat -> baseRotations == 5 ->
        Qabs (angle - 2160) <= 24).
Proof.
  intros rnd items selectedItem baseRotations i H0 H1 Hchosen sector angle.
  assert (Hne : items <> []).
  { destruct Hchosen as [(item & Hnth & _) _].
    intros ->. destruct i; discriminate. }
  assert (Hsector : 0 < sector).
  { apply sector_positive. destruct items; [congruence | simpl; lia]. }
  assert (Hangle : angle = baseRotations * 360
                           + (360 - inject_Z (Z.of_nat i) * sector)
                           + (rnd - 0.5) * sector * 0.8
                   /\ snd (calculateRotationAngle rnd items selectedItem
                             baseRotations) = []).
  { unfold angle, calculateRotationAngle.
    rewrite (length_eqb_nonempty _ Hne), (chosen_at_findIndex _ _ _ Hchosen).
    destruct (Z.of_nat i =? -1)%Z eqn:E; [apply Z.eqb_eq in E; lia|].
    split; reflexivity. }
  destruct Hangle as [Hangle Hlog].
  assert (Hle : Qabs ((rnd - 0.5) * sector * 0.8) <= 0.4 * sector).
  { apply Qabs_Qle_condition. split; nra. }
  split; [|split; [exact Hlog|]].
  - exists ((rnd - 0.5) * sector * 0.8). rewrite Hangle.
    split; [reflexivity|]. split; [exact Hle|].
    eapply Qle_lt_trans; [exact Hle|].
    assert (Hhalf : sector / 2 == sector * (1 # 2)) by (unfold Qdiv; reflexivity).
    rewrite Hhalf. lra.
  - intros Hsix -> Hbase.
    assert (Hsixty : sector == 60) by (unfold sector; rewrite Hsix; reflexivity).
    rewrite Hangle. apply Qabs_Qle_condition.
    apply Qabs_Qle_condition in Hle. destruct Hle as [Hlo Hhi].
    change (inject_Z (Z.of_nat 0)) with 0.
    set (jitter := (rnd - 0.5) * sector * 0.8) in *.
    split; lra.
Qed.

Lemma calculateRotationAngle_lands_in_sector_witness :
  let items := DEFAULT_ITEMS in
  let selectedItem := default_item "default_1" "大吉大利" in
  let sector := 360 / inject_Z (Z.of_nat (length items)) in
  let angle := fst (calculateRotationAngle (1 # 4) items selectedItem 5) in
  (exists jitter : Q,
      angle == 5 * 360 + (360 - inject_Z (Z.of_nat 0) * sector) + jitter /\
      Qabs jitter <= 0.4 * sector /\
      Qabs jitter < sector / 2)
  /\ snd (calculateRotationAngle (1 # 4) items selectedItem 5) = []
  /\ (length items = 6%nat -> 0%nat = 0%nat -> 5 == 5 ->
      Qabs (angle - 2160) <= 24).
Proof.
  apply (calculateRotationAngle_lands_in_sector
           (1 # 4) DEFAULT_ITEMS (default_item "default_1" "大吉大利") 5 0).
  - discriminate.
  - reflexivity.
  - split.
    + eexists. split; reflexivity.
    + intros j item Hj. lia.
Defined.

(** The index is found by id, so an entry that shares its id with an
    earlier one is not placed at its own index: in the pool of ids a, a, b
    with the second entry chosen ([i = 1], sector 120) and
    [baseRotations = 1] the result at [rnd = 1/2] is 720, the angle of
    index 0, and not within 48 of [360 + (360 - 120) = 600]. *)
Lemma calculateRotationAngle_shared_id_takes_first_index :
  ~ (forall (rnd : Q) (items : list SlotItem) (selectedItem : SlotItem)
            (baseRotations : Q) (i : nat),
        0 <= rnd -> rnd < 1 -> 1 <= baseRotations ->
        nth_error items i = Some selectedItem ->
        let sector := 360 / inject_Z (Z.of_nat (length items)) in
        exists jitter : Q,
          fst (calculateRotationAngle rnd items selectedItem baseRotations)
          == baseRotations * 360 + (360 - inject_Z (Z.of_nat i) * sector) + jitter /\
          Qabs jitter <= 0.4 * sector).
Proof.
  intro Hclaim.
  destruct (Hclaim (1 # 2)
              [labelled "a" "first" 1; labelled "a" "second" 1; entry "b" 1]
              (labelled "a" "second" 1) 1 1%nat)
    as (jitter & Hangle & Hbound); try reflexivity; try discriminate.
  assert (Hcode : fst (calculateRotationAngle (1 # 2)
                         [labelled "a" "first" 1; labelled "a" "second" 1;
                          entry "b" 1]
                         (labelled "a" "second" 1) 1) == 720)
    by (vm_compute; reflexivity).
  assert (Hsector : 360 / inject_Z (Z.of_nat 3) == 120)
    by (vm_compute; reflexivity).
  rewrite Hcode in Hangle.
  change (length [labelled "a" "first" 1; labelled "a" "second" 1; entry "b" 1])
    with 3%nat in Hangle, Hbound.
  apply Qabs_Qle_condition in Hbound. destruct Hbound as [_ Hhi].
  change (inject_Z (Z.of_nat 1)) with 1 in Hangle.
  set (sector := 360 / inject_Z (Z.of_nat 3)) in *.
  lra.
Qed.

Example calculateRotationAngle_sample :
  Qred (fst (calculateRotationAngle (1 # 4) DEFAULT_ITEMS
               (default_item "default_1" "大吉大利") 5)) = 2148.
Proof. reflexivity. Qed.

(** C7.  When the pool is not empty and no entry carries the chosen id,
    [calculateRotationAngle] writes one warning and returns
    [baseRotations * 360]; on the empty pool its first guard returns 0 and
    nothing is logged.  Either way a number is returned. *)
Theorem calculateRotationAngle_entry_not_found :
  forall (rnd : Q) (items : list SlotItem) (selectedItem : SlotItem)
         (baseRotations : Q),
    items <> [] ->
    (forall item, In item items -> id item <> id selectedItem) ->
    calculateRotationAngle rnd items selectedItem baseRotations
    = (baseRotations * 360, [msg_not_in_wheel])
    /\ calculateRotationAngle rnd [] selectedItem baseRotations = (0, []).
Proof.
  intros rnd items selectedItem baseRotations Hne Habsent.
  split; [|reflexivity].
  unfold calculateRotationAngle, findIndex.
  rewrite (length_eqb_nonempty _ Hne).
  rewrite findIndex_from_absent.
  - reflexivity.
  - intros item Hin. apply String.eqb_neq. apply Habsent. exact Hin.
Qed.

Lemma calculateRotationAngle_entry_not_found_witness :
  calculateRotationAngle (1 # 4) DEFAULT_ITEMS (entry "custom_1" 1) 5
  = (5 * 360, [msg_not_in_wheel])
  /\ calculateRotationAngle (1 # 4) [] (entry "custom_1" 1) 5 = (0, []).
Proof.
  apply (calculateRotationAngle_entry_not_found
           (1 # 4) DEFAULT_ITEMS (entry "custom_1" 1) 5).
  - discriminate.
  - intros item [<- | [<- | [<- | [<- | [<- | [<- | []]]]]]]; discriminate.
Defined.

(** An id that does not occur in the pool does not always give
    [baseRotations * 360] and a warning: the empty pool gives 0 and no
    warning. *)
Lemma calculateRotationAngle_empty_pool_returns_zero :
  ~ (forall (rnd : Q) (items : list SlotItem) (selectedItem : SlotItem)
            (baseRotations : Q),
        (forall item, In item items -> id item <> id selectedItem) ->
        fst (calculateRotationAngle rnd items selectedItem baseRotations)
        == baseRotations * 360 /\
        snd (calculateRotationAngle rnd items selectedItem baseRotations)
        = [msg_not_in_wheel]).
Proof.
  intro Hclaim.
  destruct (Hclaim 0 [] (entry "a" 1) 5) as [Hangle Hlog].
  - intros item [].
  - discriminate Hlog.
Qed.

(** ** [calculateProbabilities] *)

(** [toFixed(1)] rounds to the nearest tenth, upwards on a tie. *)
Lemma tenths_nearest (x : Q) :
  (0 <= tenths x)%Z /\
  - (1 # 20) < inject_Z (tenths x) / 10 - Qabs x /\
  inject_Z (tenths x) / 10 - Qabs x <= 1 # 20.
Proof.
  unfold tenths.
  pose proof (Qabs_nonneg x) as Habs.
  generalize dependent (Qabs x). intros a Ha.
  pose proof (Qfloor_le (a * 10 + (1 # 2))) as Hlo.
  pose proof (Qlt_floor (a * 10 + (1 # 2))) as Hhi.
  rewrite inject_Z_plus in Hhi.
  change (inject_Z 1) with 1 in Hhi.
  split.
  - change 0%Z with (Qfloor 0). apply Qfloor_resp_le. clear Hlo Hhi. lra.
  - revert Hlo Hhi.
    generalize (inject_Z (Qfloor (a * 10 + (1 # 2)))). intros z Hlo Hhi.
    unfold Qdiv. change (/ 10) with (1 # 10). split; lra.
Qed.








(** On doubles the share of 23 in 80 is 28.749999999999996 and prints as
    28.7%; the exact share 28.75 would print as 28.8%. *)
Example calculateProbabilities_rounded_sample :
  map Double.probability
      (Double.calculateProbabilities [Double.entry "a" 23; Double.entry "b" 57])
  = [28.749999999999996; 71.25]%float
  /\ map Double.probabilityText
       (Double.calculateProbabilities [Double.entry "a" 23; Double.entry "b" 57])
     = [Some "28.7%"; Some "71.3%"]%string
  /\ map Double.probabilityText
       (Double.calculateProbabilities
          [Double.entry "a" 1; Double.entry "b" 2; Double.entry "c" 3])
     = [Some "16.7%"; Some "33.3%"; Some "50.0%"]%string.
Proof. vm_compute. repeat split. Qed.

Example calculateProbabilities_sample :
  map probabilityText (calculateProbabilities [entry "a" 1; entry "b" 2; entry "c" 3])
  = ["16.7%"; "33.3%"; "50.0%"]%string.
Proof. reflexivity. Qed.

Example toFixed1_tie_and_sign :
  toFixed1 (25 # 4) = "6.3"%string /\ toFixed1 (- (1 # 100)) = "-0.0"%string.
Proof. split; reflexivity. Qed.

(** ** [HistoryStorage.addRecord] *)

(** C9.  [addRecord] stores the new record in front of the records there
    were, cut to the first 100: the stored list is at most 100 long, starts
    with the new record, and what was dropped is the tail beyond the cap. *)
Theorem addRecord_prepends_and_caps :
  forall (st : HistoryStorage.Storage) (record : HistoryRecord),
    let before := HistoryStorage.getRecords st in
    let after := HistoryStorage.getRecords (HistoryStorage.addRecord record st) in
    after = firstn 100 (record :: before)
    /\ (length after <= 100)%nat
    /\ hd_error after = Some record
    /\ record :: before = after ++ skipn 100 (record :: before)
    /\ length after = Nat.min 100 (S (length before)).
Proof.
  intros st record before after.
  assert (Hafter : after = firstn 100 (record :: before)).
  { unfold after, HistoryStorage.addRecord, HistoryStorage.saveRecords,
      HistoryStorage.getRecords at 1.
    fold before.
    destruct (100 <? length (record :: before))%nat eqn:E; [reflexivity|].
    apply Nat.ltb_ge in E. symmetry. apply firstn_all2. exact E. }
  rewrite Hafter. repeat split.
  - rewrite length_firstn. lia.
  - symmetry. apply firstn_skipn.
  - rewrite length_firstn. reflexivity.
Qed.

Example addRecord_at_the_cap :
  let old := {| recordId := "h0"; itemId := "default_1"; timestamp := "t0";
                result := "r0" |} in
  let new := {| recordId := "h1"; itemId := "default_2"; timestamp := "t1";
                result := "r1" |} in
  HistoryStorage.getRecords (HistoryStorage.addRecord new (Some (repeat old 100)))
  = new :: repeat old 99.
Proof. reflexivity. Qed.

(** ** [WheelAnimationController] *)

Import WheelAnimationController.

Section ControllerProperties.

Context {num : Type} `{Number num}.

Lemma run_snoc (el : option (HTMLElement num)) (history : list (Event num)) (ev : Event num) :
  run el (history ++ [ev]) = step (run el history) ev.
Proof. unfold run. rewrite fold_left_app. reflexivity. Qed.

Lemma consistent_create (el : option (HTMLElement num)) : consistent (create el).
Proof. unfold consistent, create. simpl. split; [lia | split; reflexivity]. Qed.

Ltac open_world w :=
  destruct w as [[el sp rot aid] fr nh st fu];
  unfold consistent in *; simpl in *.

Lemma consistent_spin (now targetAngle duration_ : num) (easing_ : num -> num)
    (w : World num) :
  consistent w -> consistent (snd (spin now targetAngle duration_ easing_ w)).
Proof.
  intro Hw. unfold spin.
  destruct (element (this w)) as [e|] eqn:Hel; [|exact Hw].
  destruct (isSpinning (this w)) eqn:Hsp; [exact Hw|].
  open_world w. subst. destruct Hw as (Hnh & _ & ->).
  split; [lia|]. split; [discriminate|].
  eexists _, _. repeat split; lia.
Qed.

Lemma consistent_animate (a : Animation num) (now : num) (w : World num) :
  (0 < nextHandle w)%Z -> isSpinning (this w) = true ->
  element (this w) <> None -> frames w = [] ->
  consistent (animate a now w).
Proof.
  intros Hnh Hsp Hel Hfr. unfold animate.
  open_world w. subst.
  destruct el as [e|]; [|congruence]. unfold set_transform. simpl.
  destruct (lt _ one); unfold consistent; simpl.
  - split; [lia|]. split; [discriminate|].
    eexists _, _. repeat split; lia.
  - split; [lia|]. split; reflexivity.
Qed.

Lemma consistent_frame (now : num) (w : World num) :
  consistent w -> consistent (frame now w).
Proof.
  intro Hw. unfold frame.
  destruct (isSpinning (this w)) eqn:Hsp.
  - assert (Hshape : (0 < nextHandle w)%Z /\ element (this w) <> None /\
                     exists h a, frames w = [(h, a)]).
    { unfold consistent in Hw. rewrite Hsp in Hw.
      destruct Hw as (Hnh & Hel & h & a & _ & _ & Hfr).
      repeat split; try assumption. exists h, a. exact Hfr. }
    destruct Hshape as (Hnh & Hel & h & a & Hfr).
    rewrite Hfr. simpl.
    apply consistent_animate; simpl; assumption || reflexivity.
  - unfold consistent in Hw. rewrite Hsp in Hw.
    destruct Hw as (Hnh & Haid & Hfr). rewrite Hfr. simpl.
    unfold consistent. simpl. rewrite Hsp. repeat split; assumption.
Qed.

Lemma consistent_stop (w : World num) :
  consistent w ->
  consistent (stop w) /\ frames (stop w) = [] /\
  animationId (this (stop w)) = None.
Proof.
  intro Hw. unfold stop. open_world w.
  destruct Hw as (Hnh & Hw). destruct sp.
  - destruct Hw as (Hel & h & a & -> & Hh & ->). simpl.
    assert (Hnz : (h =? 0)%Z = false) by (apply Z.eqb_neq; lia).
    rewrite Hnz. simpl. rewrite Z.eqb_refl. simpl.
    repeat split; try assumption; reflexivity.
  - destruct Hw as (-> & ->). simpl. repeat split; try assumption; reflexivity.
Qed.

Lemma consistent_reset (w : World num) : consistent w -> consistent (reset w).
Proof.
  intro Hw. destruct (consistent_stop w Hw) as (Hs & Hfr & Haid).
  assert (Hidle : isSpinning (this (stop w)) = false)
    by (unfold stop; destruct (animationId (this w)) as [h|];
        [destruct (truthy (Some h))|]; reflexivity).
  unfold reset. set (s := stop w) in *. clearbody s.
  open_world s. subst. destruct Hs as (Hnh & _).
  unfold set_transform. simpl.
  destruct el; simpl; repeat split; assumption || reflexivity.
Qed.

Lemma consistent_step (w : World num) (ev : Event num) :
  consistent w -> consistent (step w ev).
Proof.
  intro Hw. destruct ev; simpl.
  - apply consistent_spin. exact Hw.
  - apply consistent_frame. exact Hw.
  - apply consistent_stop. exact Hw.
  - apply consistent_reset. exact Hw.
Qed.

(** Every world of a run is consistent. *)
Lemma run_consistent (el : option (HTMLElement num)) (history : list (Event num)) :
  consistent (run el history).
Proof.
  induction history as [|ev history IH] using rev_ind.
  - apply consistent_create.
  - rewrite run_snoc. apply consistent_step. exact IH.
Qed.

Lemma reset_zero_rotation (w : World num) :
  currentRotation (this (reset w)) = zero.
Proof.
  destruct w as [[el sp rot aid] fr nh st fu]. unfold reset, stop. simpl.
  destruct aid as [h|]; [destruct (h =? 0)%Z|];
    destruct el; reflexivity.
Qed.

(** C3.  In every world of a run in which the controller is spinning, a
    call of [spin] hands back a promise rejected with the already-spinning
    error, and the world after the call is the world before it: the
    controller's fields (so [isSpinning] and [currentRotation]), the queued
    frame and the promises are untouched. *)
Theorem spin_while_spinning_is_rejected :
  forall (el : option (HTMLElement num)) (history : list (Event num))
         (now targetAngle duration_ : num) (easing_ : num -> num),
    let w := run el history in
    isSpinning (this w) = true ->
    spin now targetAngle duration_ easing_ w
    = (Rejected (MkError msg_already_spinning), w)
    /\ AlreadySpinning (MkError msg_already_spinning)
    /\ getState (snd (spin now targetAngle duration_ easing_ w)) = getState w.
Proof.
  intros el history now targetAngle duration_ easing_ w Hsp.
  assert (Hspin : spin now targetAngle duration_ easing_ w
                  = (Rejected (MkError msg_already_spinning), w)).
  { pose proof (run_consistent el history) as Hw. fold w in Hw.
    unfold consistent in Hw. rewrite Hsp in Hw.
    destruct Hw as (_ & Hel & _).
    unfold spin. destruct (element (this w)); [|congruence].
    rewrite Hsp. reflexivity. }
  rewrite Hspin. repeat split; reflexivity.
Qed.

(** C6.  From any state whatever, [reset] leaves [currentRotation = 0] and
    [isSpinning = false], and the element, when there is one, carries the
    transform [rotate(0deg)]. *)
Theorem reset_returns_to_zero :
  forall w : World num,
    currentRotation (this (reset w)) = zero
    /\ isSpinning (this (reset w)) = false
    /\ element (this (reset w))
       = option_map (fun _ => {| style_transform := rotate zero |})
                    (element (this w))
    /\ getState (reset w) = (false, zero).
Proof.
  intro w. unfold reset, stop, getState.
  destruct w as [[el sp rot aid] fr nh st fu]. simpl.
  destruct aid as [h|]; [destruct (h =? 0)%Z|];
    destruct el; repeat split; reflexivity.
Qed.

(** C10.  [stop] turns [isSpinning] off and leaves [currentRotation], the
    element and the promises as they were, in any state; in every world of
    a run it also leaves no frame queued and no handle held, and it changes
    nothing when the controller was idle.  [reset] is the call that puts
    [currentRotation] back to 0. *)
Theorem stop_cancels_and_keeps_rotation :
  (forall w : World num,
      isSpinning (this (stop w)) = false
      /\ currentRotation (this (stop w)) = currentRotation (this w)
      /\ element (this (stop w)) = element (this w)
      /\ fulfilled (stop w) = fulfilled w
      /\ currentRotation (this (reset w)) = zero)
  /\ (forall (el : option (HTMLElement num)) (history : list (Event num)),
        let w := run el history in
        frames (stop w) = []
        /\ animationId (this (stop w)) = None
        /\ (isSpinning (this w) = false -> stop w = w)).
Proof.
  split.
  - intro w. split; [|split; [|split; [|split]]].
    + unfold stop. destruct (animationId (this w)) as [h|];
        [destruct (truthy (Some h))|]; reflexivity.
    + unfold stop. destruct (animationId (this w)) as [h|];
        [destruct (truthy (Some h))|]; reflexivity.
    + unfold stop. destruct (animationId (this w)) as [h|];
        [destruct (truthy (Some h))|]; reflexivity.
    + unfold stop. destruct (animationId (this w)) as [h|];
        [destruct (truthy (Some h))|]; reflexivity.
    + apply reset_zero_rotation.
  - intros el history w.
    pose proof (run_consistent el history) as Hw. fold w in Hw.
    destruct (consistent_stop w Hw) as (_ & Hfr & Haid).
    split; [exact Hfr|]. split; [exact Haid|].
    intro Hidle. unfold consistent in Hw. rewrite Hidle in Hw.
    destruct Hw as (_ & Hnone & Hnil).
    unfold stop. rewrite Hnone.
    destruct w as [[el' sp rot aid] fr nh st fu]. simpl in *.
    subst. reflexivity.
Qed.

End ControllerProperties.

(** A wheel is spun, one frame is drawn a second later, and a second call
    of [spin] arrives: it is rejected and nothing moves. *)
Lemma spin_while_spinning_is_rejected_witness :
  let w := run (num := Q) (Some {| style_transform := initial_transform |})
               [CallSpin 0 2148 3000 easeOutCubic; HostFrame 1000] in
  spin 1016 720 3000 easeOutCubic w
  = (Rejected (MkError msg_already_spinning), w)
  /\ AlreadySpinning (MkError msg_already_spinning)
  /\ getState (snd (spin 1016 720 3000 easeOutCubic w)) = getState w.
Proof.
  apply (spin_while_spinning_is_rejected (num := Q)
           (Some {| style_transform := initial_transform |})
           [CallSpin 0 2148 3000 easeOutCubic; HostFrame 1000]
           1016 720 3000 easeOutCubic).
  reflexivity.
Defined.

Example spin_runs_to_completion :
  let w := run (num := Q) (Some {| style_transform := initial_transform |})
               [CallSpin 0 2148 3000 easeOutCubic; HostFrame 1000;
                HostFrame 3000] in
  isSpinning (this w) = false /\ fulfilled w = [0%nat] /\ frames w = [] /\
  Qred (currentRotation (this w)) = 2148 /\
  option_map (fun e => match style_transform e with
                       | rotate deg => Some (Qred deg)
                       | initial_transform => None
                       end) (element (this w)) = Some (Some 2148).
Proof. intro w. repeat split; reflexivity. Qed.

(** A spin is stopped; stopping the idle controller again changes nothing. *)
Lemma stop_cancels_and_keeps_rotation_witness :
  let w := run (num := Q) (Some {| style_transform := initial_transform |})
               [CallSpin 0 2148 3000 easeOutCubic; HostFrame 1000; CallStop] in
  frames (stop w) = [] /\ animationId (this (stop w)) = None /\ stop w = w.
Proof.
  destruct (proj2 (stop_cancels_and_keeps_rotation (num := Q))
              (Some {| style_transform := initial_transform |})
              [CallSpin 0 2148 3000 easeOutCubic; HostFrame 1000; CallStop])
    as (Hframes & Hhandle & Hidle).
  intro w.
  split; [exact Hframes | split; [exact Hhandle | apply Hidle; reflexivity]].
Defined.

Example stop_keeps_the_angle_reached :
  let w := run (num := Q) (Some {| style_transform := initial_transform |})
               [CallSpin 0 2700 3000 easeOutCubic; HostFrame 1000] in
  Qred (currentRotation (this w)) = 1900 /\
  Qred (currentRotation (this (stop w))) = 1900 /\
  frames w <> [] /\ frames (stop w) = [] /\
  currentRotation (this (reset w)) = 0.
Proof. intro w. repeat split; try reflexivity. discriminate. Qed.

(** * Further properties of the engine *)

(** ** [simpleRandomSelect] *)




Example simpleRandomSelect_product_rounds :
  (0.8333333333333333 * 6)%float = 5%float
  /\ simpleRandomSelect (7505999378950826 # 9007199254740992)
       [entry "a" 1; entry "b" 1; entry "c" 1; entry "d" 1; entry "e" 1;
        entry "f" 1]
     = Return (Some (entry "e" 1)).
Proof. vm_compute. repeat split. Qed.

(** ** More on [weightedRandomSelect] *)










(** What rounding does to the two properties above: with three weights of
    1 the random value 0.33333333333333337 gives the draw 1.0 on doubles,
    which the first entry takes, while in exact arithmetic the draw is above
    1 and the second entry is returned; with three weights of 3 the same
    random value gives the second entry on doubles too. *)
Example weightedRandomSelect_rounding_moves_the_ends :
  Double.weightedRandomSelect 0.33333333333333337
    [Double.entry "a" 1; Double.entry "b" 1; Double.entry "c" 1]
  = Return (Some (Double.entry "a" 1))
  /\ Double.weightedRandomSelect 0.33333333333333337
       [Double.entry "a" 3; Double.entry "b" 3; Double.entry "c" 3]
     = Return (Some (Double.entry "b" 3))
  /\ weightedRandomSelect (6004799503160662 # 18014398509481984)
       [entry "a" 1; entry "b" 1; entry "c" 1]
     = Return (Some (entry "b" 1)).
Proof. vm_compute. repeat split. Qed.

(** ** More on [antiRepeatRandomSelect] *)

Lemma filter_keeps_all {A : Type} (f : A -> bool) (l : list A) :
  (forall x, In x l -> f x = true) -> filter f l = l.
Proof.
  induction l as [|a l IH]; intro Hall; simpl.
  - reflexivity.
  - rewrite (Hall a) by (left; reflexivity).
    rewrite IH; [reflexivity|]. intros x Hx. apply Hall. right. exact Hx.
Qed.

(** X4.  Recent ids that name no entry of the pool have no effect: the draw
    is the plain weighted draw, error included.  In particular this is so
    with no recent results at all. *)
Theorem antiRepeatRandomSelect_without_recent_entries :
  forall (rnd : Q) (items : list SlotItem) (recentResults : list string)
         (avoidRecentCount : Z),
    (forall item, In item items ->
                  ~ In (id item) (slice0 recentResults avoidRecentCount)) ->
    antiRepeatRandomSelect rnd items recentResults avoidRecentCount
    = weightedRandomSelect rnd items
    /\ antiRepeatRandomSelect rnd items [] avoidRecentCount
       = weightedRandomSelect rnd items.
Proof.
  assert (Hplain : forall rnd items recentResults avoidRecentCount,
             (forall item, In item items ->
                           ~ In (id item) (slice0 recentResults avoidRecentCount)) ->
             antiRepeatRandomSelect rnd items recentResults avoidRecentCount
             = weightedRandomSelect rnd items).
  { intros rnd items recentResults avoidRecentCount Hfresh.
    destruct items as [|a items]; [reflexivity|].
    rewrite antiRepeatRandomSelect_unfold by discriminate.
    unfold candidatePool, targetItems.
    destruct (Z.of_nat (length (a :: items)) <=? avoidRecentCount)%Z;
      [reflexivity|].
    rewrite filter_keeps_all.
    - reflexivity.
    - intros item Hin. apply negb_true_iff.
      destruct (includes _ (id item)) eqn:E; [|reflexivity].
      apply includes_In in E. exfalso. exact (Hfresh item Hin E). }
  intros rnd items recentResults avoidRecentCount Hfresh.
  split; [apply Hplain; exact Hfresh|].
  apply Hplain. intros item _ Hin.
  unfold slice0 in Hin. rewrite firstn_nil in Hin. exact Hin.
Qed.

Lemma antiRepeatRandomSelect_without_recent_entries_witness :
  let items := [entry "a" 1; entry "b" 2; entry "c" 1] in
  antiRepeatRandomSelect (3 # 4) items ["z"%string; "y"%string] 2
  = weightedRandomSelect (3 # 4) items
  /\ antiRepeatRandomSelect (3 # 4) items [] 2 = weightedRandomSelect (3 # 4) items.
Proof.
  apply (antiRepeatRandomSelect_without_recent_entries
           (3 # 4) [entry "a" 1; entry "b" 2; entry "c" 1]
           ["z"%string; "y"%string] 2).
  intros item [<- | [<- | [<- | []]]]; simpl; intuition discriminate.
Defined.

(** The two halves of the draw on a validated pool. *)
Lemma draw_returns_candidate (rnd : Q) (items : list SlotItem)
    (recentResults : list string) (avoidRecentCount : Z) :
  items <> [] ->
  (forall item, In item items -> 0 < weight item) ->
  exists item,
    antiRepeatRandomSelect rnd items recentResults avoidRecentCount
    = Return (Some item) /\
    In item (candidatePool items recentResults avoidRecentCount).
Proof.
  intros Hne Hweights.
  rewrite antiRepeatRandomSelect_unfold by exact Hne.
  apply weightedRandomSelect_member.
  - apply candidatePool_nonempty. exact Hne.
  - apply totalWeight_positive.
    + intros x Hx. apply Hweights. eapply candidatePool_incl. exact Hx.
    + apply candidatePool_nonempty. exact Hne.
Qed.

Lemma candidatePool_excludes_recent (items : list SlotItem)
    (recentResults : list string) (avoidRecentCount : Z) :
  NoDup (map id items) ->
  (0 <= avoidRecentCount < Z.of_nat (length items))%Z ->
  forall item,
    In item (candidatePool items recentResults avoidRecentCount) ->
    ~ In (id item) (firstn (Z.to_nat avoidRecentCount) recentResults).
Proof.
  intros Hnodup [Hnonneg Hlen] item Hin.
  unfold candidatePool in Hin.
  destruct (Z.of_nat (length items) <=? avoidRecentCount)%Z eqn:E;
    [apply Z.leb_le in E; lia|].
  unfold targetItems in Hin.
  rewrite slice0_nonneg in Hin by exact Hnonneg.
  set (recentIds := firstn (Z.to_nat avoidRecentCount) recentResults) in *.
  assert (Hleft : filter (fun item => negb (includes recentIds (id item))) items
                  <> []).
  { apply filter_leaves_entry; [exact Hnodup|].
    unfold recentIds. rewrite length_firstn. lia. }
  destruct (0 <? length _)%nat eqn:Hany in Hin.
  - apply filter_In in Hin as [_ Hout].
    apply negb_true_iff in Hout. intro Hrecent.
    apply includes_In in Hrecent. congruence.
  - apply Nat.ltb_ge in Hany.
    destruct (filter _ items); [congruence | simpl in Hany; lia].
Qed.

(** ** [validateWheelConfig] *)

Lemma nodup_length_le (l : list string) :
  (length (nodup string_dec l) <= length l)%nat.
Proof.
  induction l as [|a l IH]; simpl; [lia|].
  destruct (in_dec string_dec a l); simpl; lia.
Qed.

Lemma set_size_distinct (l : list string) :
  length l = set_size l <-> NoDup l.
Proof.
  unfold set_size. split.
  - induction l as [|a l IH]; simpl; intro Hlen; [constructor|].
    pose proof (nodup_length_le l) as Hle.
    destruct (in_dec string_dec a l) as [Hin | Hout]; simpl in Hlen; [lia|].
    constructor; [exact Hout | apply IH; lia].
  - intro Hnodup. rewrite (nodup_fixed_point string_dec Hnodup). reflexivity.
Qed.

Lemma forEach_from_nil {A : Type} (f : SlotItem -> nat -> list A)
    (items : list SlotItem) :
  forall index : nat,
    forEach_from f items index = [] <->
    (forall i item, nth_error items i = Some item -> f item (index + i)%nat = []).
Proof.
  induction items as [|a items IH]; intro index; simpl.
  - split; [intros _ [|i] item Hnth; discriminate | reflexivity].
  - split.
    + intros Hnil. apply app_eq_nil in Hnil as [Ha Hrest].
      intros [|i] item Hnth; simpl in Hnth.
      * injection Hnth as <-. rewrite Nat.add_0_r. exact Ha.
      * rewrite Nat.add_succ_r. apply (proj1 (IH (S index)) Hrest i item Hnth).
    + intro Hall.
      rewrite (proj2 (IH (S index))).
      * rewrite app_nil_r. specialize (Hall 0%nat a eq_refl).
        rewrite Nat.add_0_r in Hall. exact Hall.
      * intros i item Hnth. specialize (Hall (S i) item Hnth).
        rewrite Nat.add_succ_r in Hall. exact Hall.
Qed.

Lemma item_errors_nil (trim : string -> string) (item : SlotItem) (index : nat) :
  item_errors trim item index = [] <->
  (id item <> ""%string /\ text item <> ""%string /\
   trim (text item) <> ""%string /\ 0 < weight item).
Proof.
  unfold item_errors, no_string.
  destruct (String.eqb_spec (id item) "") as [Eid | Eid];
    destruct (String.eqb_spec (text item) "") as [Etext | Etext];
    destruct (String.eqb_spec (trim (text item)) "") as [Etrim | Etrim];
    (destruct (Qle_bool (weight item) 0) eqn:Ew;
     [apply Qle_bool_iff in Ew | apply Qle_bool_false in Ew]);
    simpl; (split; [try discriminate | intros (H1 & H2 & H3 & H4)]);
    try contradiction; try lra; try reflexivity; try (intros _; tauto).
Qed.

Lemma validateWheelConfig_accepts (trim : string -> string)
    (items : list SlotItem) :
  isValid (validateWheelConfig trim items) = true <->
  (items <> [] /\
   (forall item, In item items ->
                 id item <> ""%string /\ text item <> ""%string /\
                 trim (text item) <> ""%string /\ 0 < weight item) /\
   NoDup (map id items)).
Proof.
  unfold validateWheelConfig.
  destruct (length items =? 0)%nat eqn:Hlen.
  { apply Nat.eqb_eq, length_zero_iff_nil in Hlen. subst.
    simpl. split; [discriminate | intros [Hne _]; congruence]. }
  assert (Hne : items <> []) by (intros ->; discriminate).
  cbn [isValid].
  rewrite Nat.eqb_eq, length_zero_iff_nil.
  split.
  - intro Hnil. apply app_eq_nil in Hnil as [Hnil Hdup].
    apply app_eq_nil in Hnil as [_ Heach].
    split; [exact Hne|]. split.
    + intros item Hin. apply In_nth_error in Hin as [i Hnth].
      apply (item_errors_nil trim item (0 + i)).
      apply (proj1 (forEach_from_nil _ items 0%nat) Heach i item Hnth).
    + apply set_size_distinct.
      destruct (length (map id items) =? set_size (map id items))%nat eqn:E;
        [apply Nat.eqb_eq; exact E | discriminate Hdup].
  - intros (_ & Heach & Hnodup).
    assert (Hpos : 0 < totalWeight items).
    { apply totalWeight_positive; [|exact Hne].
      intros item Hin. apply Heach. exact Hin. }
    destruct (Qle_bool (totalWeight items) 0) eqn:E.
    { apply Qle_bool_iff in E. lra. }
    rewrite (proj2 (forEach_from_nil _ items 0%nat)).
    + apply set_size_distinct in Hnodup.
      apply Nat.eqb_eq in Hnodup. rewrite Hnodup. reflexivity.
    + intros i item Hnth. apply item_errors_nil. apply Heach.
      eapply nth_error_In. exact Hnth.
Qed.


Example validateWheelConfig_default_items :
  validateWheelConfig (fun s => s) DEFAULT_ITEMS
  = {| isValid := true; errors := []; warnings := [] |}.
Proof. reflexivity. Qed.

Example validateWheelConfig_reports :
  validateWheelConfig (fun s => s)
    [labelled "a" "same" 1; labelled "a" "same" 0]
  = {| isValid := false;
       errors := ["第2个项目权重必须大于0"; msg_duplicate_id]%string;
       warnings := [msg_duplicate_text] |}.
Proof. reflexivity. Qed.

(** X6.  On a configuration that [validateWheelConfig] accepts the draw
    never throws: it returns an entry of the pool, and when the pool is
    longer than [avoidRecentCount >= 0] the entry's id is not among the
    first [avoidRecentCount] recent ids. *)
Theorem validated_config_draws_safely :
  forall (trim : string -> string) (rnd : Q) (items : list SlotItem)
         (recentResults : list string) (avoidRecentCount : Z),
    isValid (validateWheelConfig trim items) = true ->
    exists item,
      antiRepeatRandomSelect rnd items recentResults avoidRecentCount
      = Return (Some item) /\
      In item items /\
      ((0 <= avoidRecentCount < Z.of_nat (length items))%Z ->
       ~ In (id item) (firstn (Z.to_nat avoidRecentCount) recentResults)).
Proof.
  intros trim rnd items recentResults avoidRecentCount Hvalid.
  apply validateWheelConfig_accepts in Hvalid as (Hne & Heach & Hnodup).
  destruct (draw_returns_candidate rnd items recentResults avoidRecentCount Hne)
    as (item & Hret & Hin).
  { intros x Hx. apply Heach. exact Hx. }
  exists item. split; [exact Hret|]. split.
  - eapply candidatePool_incl. exact Hin.
  - intro Hrange.
    eapply candidatePool_excludes_recent; eassumption.
Qed.

Lemma validated_config_draws_safely_witness :
  exists item,
    antiRepeatRandomSelect (1 # 3) DEFAULT_ITEMS
      ["default_1"%string; "default_2"%string; "default_3"%string] 2
    = Return (Some item) /\
    In item DEFAULT_ITEMS /\
    ((0 <= 2 < Z.of_nat (length DEFAULT_ITEMS))%Z ->
     ~ In (id item)
          (firstn (Z.to_nat 2)
             ["default_1"%string; "default_2"%string; "default_3"%string])).
Proof.
  apply (validated_config_draws_safely (fun s => s) (1 # 3) DEFAULT_ITEMS
           ["default_1"%string; "default_2"%string; "default_3"%string] 2).
  reflexivity.
Defined.

(** ** More on [calculateProbabilities] *)



(** * Further properties of the storage managers *)

(** ** [HistoryStorage] *)

Lemma firstn_app_firstn {A : Type} (n : nat) (l m : list A) :
  firstn n (l ++ firstn n m) = firstn n (l ++ m).
Proof.
  rewrite !firstn_app, firstn_firstn.
  replace (Nat.min (n - length l) n) with (n - length l)%nat by lia.
  reflexivity.
Qed.

Lemma getRecords_addRecord (record : HistoryRecord) (st : HistoryStorage.Storage) :
  HistoryStorage.getRecords (HistoryStorage.addRecord record st)
  = firstn 100 (record :: HistoryStorage.getRecords st).
Proof.
  unfold HistoryStorage.addRecord, HistoryStorage.saveRecords.
  cbn [HistoryStorage.getRecords].
  destruct (100 <? length (record :: HistoryStorage.getRecords st))%nat eqn:E;
    [reflexivity|].
  apply Nat.ltb_ge in E. symmetry. apply firstn_all2. exact E.
Qed.

(** X8.  After any number of [addRecord] calls (at least one) the store
    holds the 100 most recent records, newest first: the records added, in
    reverse order, followed by those that were there, cut to 100. *)
Theorem addRecord_keeps_most_recent :
  forall (record : HistoryRecord) (records : list HistoryRecord)
         (st : HistoryStorage.Storage),
    HistoryStorage.getRecords
      (fold_left (fun st r => HistoryStorage.addRecord r st) (record :: records) st)
    = firstn 100 (rev (record :: records) ++ HistoryStorage.getRecords st).
Proof.
  intros record records. revert record.
  induction records as [|next records IH]; intros record st.
  - simpl. apply getRecords_addRecord.
  - change (fold_left _ (record :: next :: records) st)
      with (fold_left (fun st r => HistoryStorage.addRecord r st)
              (next :: records) (HistoryStorage.addRecord record st)).
    rewrite IH, getRecords_addRecord.
    change (record :: HistoryStorage.getRecords st)
      with ([record] ++ HistoryStorage.getRecords st).
    rewrite firstn_app_firstn.
    change (rev (record :: next :: records))
      with (rev (next :: records) ++ [record]).
    rewrite <- app_assoc. reflexivity.
Qed.

(** ** [SlotItemStorage] *)

Lemma findIndex_from_cases {A : Type} (p : A -> bool) (l : list A) :
  forall k : Z,
    (findIndex_from p l k = (-1)%Z /\ forall x, In x l -> p x = false)
    \/ exists (i : nat) (x : A),
         findIndex_from p l k = (k + Z.of_nat i)%Z /\
         nth_error l i = Some x /\ p x = true /\
         forall j y, (j < i)%nat -> nth_error l j = Some y -> p y = false.
Proof.
  induction l as [|a l IH]; intro k; simpl.
  - left. split; [reflexivity | intros x []].
  - destruct (p a) eqn:Ea.
    + right. exists 0%nat, a. repeat split; [lia | exact Ea | intros; lia].
    + destruct (IH (k + 1)%Z) as [[Hnone Hall] | (i & x & Hidx & Hnth & Hx & Hbefore)].
      * left. split; [exact Hnone|]. intros x [<- | Hin]; auto.
      * right. exists (S i), x. repeat split; try assumption; [lia|].
        intros [|j] y Hj Hy; simpl in Hy.
        -- injection Hy as <-. exact Ea.
        -- apply (Hbefore j y); [lia | exact Hy].
Qed.

Lemma map_unchanged {A : Type} (f : A -> A) (l : list A) :
  (forall x, In x l -> f x = x) -> map f l = l.
Proof.
  intro Hall. rewrite <- (map_id l) at 2. apply map_ext_in. exact Hall.
Qed.

Lemma array_set_map_id (l : list SlotItem) :
  forall (i : nat) (old new : SlotItem),
    nth_error l i = Some old -> id old = id new ->
    map id (array_set l i new) = map id l.
Proof.
  induction l as [|a l IH]; intros [|i] old new Hnth Hid; simpl in *;
    try discriminate.
  - injection Hnth as ->. rewrite Hid. reflexivity.
  - rewrite (IH i old new Hnth Hid). reflexivity.
Qed.

Lemma array_set_In {A : Type} (l : list A) :
  forall (i : nat) (x : A), (i < length l)%nat -> In x (array_set l i x).
Proof.
  induction l as [|a l IH]; intros [|i] x Hi; simpl in *; try lia.
  - left. reflexivity.
  - right. apply IH. lia.
Qed.

Lemma array_set_replaces (l : list SlotItem) :
  forall (i : nat) (old new : SlotItem),
    NoDup (map id l) -> nth_error l i = Some old -> id old = id new ->
    array_set l i new
    = map (fun item => if String.eqb (id item) (id new) then new else item) l.
Proof.
  induction l as [|a l IH]; intros [|i] old new Hnodup Hnth Hid; simpl in *;
    try discriminate; inversion Hnodup as [|? ? Hout Hrest]; subst.
  - injection Hnth as ->. rewrite Hid, String.eqb_refl. f_equal.
    symmetry. apply map_unchanged.
    intros x Hx. destruct (String.eqb_spec (id x) (id new)) as [E|E]; [|reflexivity].
    exfalso. apply Hout. rewrite Hid, <- E. apply in_map. exact Hx.
  - destruct (String.eqb_spec (id a) (id new)) as [E|E].
    + exfalso. apply Hout. rewrite E, <- Hid.
      apply in_map. eapply nth_error_In. exact Hnth.
    + rewrite (IH i old new Hrest Hnth Hid). reflexivity.
Qed.

Lemma array_set_splits {A : Type} (l : list A) :
  forall (i : nat) (old new : A),
    nth_error l i = Some old ->
    l = firstn i l ++ old :: skipn (S i) l /\
    array_set l i new = firstn i l ++ new :: skipn (S i) l.
Proof.
  induction l as [|a l IH]; intros [|i] old new Hnth; simpl in Hnth;
    try discriminate.
  - injection Hnth as ->. split; reflexivity.
  - destruct (IH i old new Hnth) as [Hl Hset].
    cbn [firstn skipn array_set app]. split.
    + f_equal. exact Hl.
    + f_equal. exact Hset.
Qed.

Lemma In_firstn_before {A : Type} (l : list A) :
  forall (i : nat) (x : A),
    In x (firstn i l) -> exists j, (j < i)%nat /\ nth_error l j = Some x.
Proof.
  induction l as [|a l IH]; intros [|i] x Hx; simpl in Hx; try contradiction.
  destruct Hx as [<- | Hx].
  - exists 0%nat. split; [lia | reflexivity].
  - destruct (IH i x Hx) as (j & Hj & Hnth).
    exists (S j). split; [lia | exact Hnth].
Qed.

(** X9.  When a custom entry carries the id of the update,
    [updateCustomItem] stores the update in place of the first such entry:
    the entries before it, none of which carries the id, and all entries
    after it, whatever their ids, are kept as they were, and no other key of
    the store changes.  When no custom entry carries the id, the store is
    left as it was.  Either way the ids of the custom entries and their
    order are kept; with distinct ids the update replaces exactly the entry
    of its id. *)
Theorem updateCustomItem_replaces_first_match :
  forall (updatedItem : SlotItem) (s : LocalStorage),
    let before := SlotItemStorage.getCustomItems s in
    let after :=
      SlotItemStorage.getCustomItems (SlotItemStorage.updateCustomItem updatedItem s) in
    (In (id updatedItem) (map id before) ->
     exists (pre : list SlotItem) (old : SlotItem) (post : list SlotItem),
       before = pre ++ old :: post /\
       id old = id updatedItem /\
       (forall x, In x pre -> id x <> id updatedItem) /\
       after = pre ++ updatedItem :: post /\
       SlotItemStorage.updateCustomItem updatedItem s
       = {| slot_items := slot_items s;
            history_records := history_records s;
            app_config := app_config s;
            custom_items := Some (pre ++ updatedItem :: post);
            current_theme := current_theme s;
            app_initialized := app_initialized s;
            data_version := data_version s |})
    /\ (~ In (id updatedItem) (map id before) ->
        SlotItemStorage.updateCustomItem updatedItem s = s)
    /\ map id after = map id before
    /\ (NoDup (map id before) ->
        after = map (fun item => if String.eqb (id item) (id updatedItem)
                                 then updatedItem else item) before).
Proof.
  intros updatedItem s before after.
  unfold after, SlotItemStorage.updateCustomItem, findIndex.
  fold before.
  destruct (findIndex_from_cases
              (fun item => String.eqb (id item) (id updatedItem)) before 0%Z)
    as [[Hnone Hall] | (i & x & Hidx & Hnth & Hx & Hbefore)].
  - rewrite Hnone. simpl. fold before.
    assert (Habsent : ~ In (id updatedItem) (map id before)).
    { intro Hin. apply in_map_iff in Hin as (y & Hy & Hin).
      specialize (Hall y Hin). simpl in Hall.
      apply String.eqb_neq in Hall. congruence. }
    split; [intro Hin; contradiction|].
    split; [reflexivity|]. split; [reflexivity|].
    intros _. symmetry. apply map_unchanged.
    intros y Hy. rewrite (Hall y Hy). reflexivity.
  - rewrite Hidx. simpl (0 + Z.of_nat i)%Z.
    destruct (Z.of_nat i =? -1)%Z eqn:E; [apply Z.eqb_eq in E; lia|].
    simpl negb. cbv iota. rewrite Nat2Z.id.
    unfold SlotItemStorage.saveCustomItems, SlotItemStorage.getCustomItems at 1.
    simpl.
    apply String.eqb_eq in Hx.
    destruct (array_set_splits before i x updatedItem Hnth) as [Hsplit Hset].
    split; [|split; [|split]].
    + intros _. exists (firstn i before), x, (skipn (S i) before).
      split; [exact Hsplit|]. split; [exact Hx|]. split.
      * intros y Hy. destruct (In_firstn_before _ _ _ Hy) as (j & Hj & Hyj).
        apply String.eqb_neq. exact (Hbefore j y Hj Hyj).
      * split; [exact Hset|].
        unfold save_custom_items. rewrite Hset. reflexivity.
    + intro Habsent. exfalso. apply Habsent. rewrite <- Hx.
      apply in_map. eapply nth_error_In. exact Hnth.
    + eapply array_set_map_id; eassumption.
    + intro Hnodup. eapply array_set_replaces; eassumption.
Qed.

Lemma updateCustomItem_replaces_first_match_witness :
  let s := {| slot_items := None; history_records := None; app_config := None;
              custom_items := Some [entry "y" 1; entry "x" 2; entry "y" 3];
              current_theme := None; app_initialized := None;
              data_version := None |} in
  let updatedItem := labelled "y" "new" 5 in
  exists (pre : list SlotItem) (old : SlotItem) (post : list SlotItem),
    SlotItemStorage.getCustomItems s = pre ++ old :: post /\
    id old = id updatedItem /\
    (forall x, In x pre -> id x <> id updatedItem) /\
    SlotItemStorage.getCustomItems (SlotItemStorage.updateCustomItem updatedItem s)
    = pre ++ updatedItem :: post /\
    SlotItemStorage.updateCustomItem updatedItem s
    = {| slot_items := slot_items s;
         history_records := history_records s;
         app_config := app_config s;
         custom_items := Some (pre ++ updatedItem :: post);
         current_theme := current_theme s;
         app_initialized := app_initialized s;
         data_version := data_version s |}.
Proof.
  intros s updatedItem.
  apply (updateCustomItem_replaces_first_match updatedItem s).
  simpl. left. reflexivity.
Defined.

Example updateCustomItem_with_a_shared_id :
  let s := {| slot_items := None; history_records := None; app_config := None;
              custom_items := Some [entry "y" 1; entry "x" 2; entry "y" 3];
              current_theme := None; app_initialized := None;
              data_version := None |} in
  SlotItemStorage.getCustomItems
    (SlotItemStorage.updateCustomItem (labelled "y" "new" 5) s)
  = [labelled "y" "new" 5; entry "x" 2; entry "y" 3].
Proof. reflexivity. Qed.

(** X10.  Adding a custom entry whose id no custom entry carries and then
    removing that id gives back the custom entries there were; the entry
    added is the last of the list in between. *)
Theorem addCustomItem_then_remove :
  forall (item : SlotItem) (s : LocalStorage),
    (forall x, In x (SlotItemStorage.getCustomItems s) -> id x <> id item) ->
    SlotItemStorage.getCustomItems (SlotItemStorage.addCustomItem item s)
    = SlotItemStorage.getCustomItems s ++ [item]
    /\ SlotItemStorage.getCustomItems
         (SlotItemStorage.removeCustomItem (id item)
            (SlotItemStorage.addCustomItem item s))
       = SlotItemStorage.getCustomItems s.
Proof.
  intros item s Hfresh. split; [reflexivity|].
  unfold SlotItemStorage.removeCustomItem, SlotItemStorage.addCustomItem,
    SlotItemStorage.saveCustomItems.
  cbn [SlotItemStorage.getCustomItems custom_items save_custom_items load].
  fold (SlotItemStorage.getCustomItems s).
  rewrite filter_app. simpl. rewrite String.eqb_refl. simpl.
  rewrite app_nil_r. apply filter_keeps_all.
  intros x Hx. apply negb_true_iff. apply String.eqb_neq. apply Hfresh. exact Hx.
Qed.

Lemma addCustomItem_then_remove_witness :
  let s := {| slot_items := None; history_records := None; app_config := None;
              custom_items := Some [entry "x" 1];
              current_theme := None; app_initialized := None;
              data_version := None |} in
  SlotItemStorage.getCustomItems (SlotItemStorage.addCustomItem (entry "y" 2) s)
  = SlotItemStorage.getCustomItems s ++ [entry "y" 2]
  /\ SlotItemStorage.getCustomItems
       (SlotItemStorage.removeCustomItem (id (entry "y" 2))
          (SlotItemStorage.addCustomItem (entry "y" 2) s))
     = SlotItemStorage.getCustomItems s.
Proof.
  intro s. apply (addCustomItem_then_remove (entry "y" 2) s).
  intros x [<- | []]. discriminate.
Defined.

(** X11.  [removeCustomItem] deletes custom entries only: the built-in part
    of [getItems] stays whatever the id, the custom entries with another id
    stay in order, none with the id is left, and an id no custom entry
    carries removes nothing. *)
Theorem removeCustomItem_spares_builtins :
  forall (itemId : string) (s : LocalStorage),
    let s' := SlotItemStorage.removeCustomItem itemId s in
    SlotItemStorage.getItems s'
    = load (slot_items s) DEFAULT_ITEMS
      ++ filter (fun item => negb (String.eqb (id item) itemId))
           (SlotItemStorage.getCustomItems s)
    /\ ~ In itemId (map id (SlotItemStorage.getCustomItems s'))
    /\ (~ In itemId (map id (SlotItemStorage.getCustomItems s)) ->
        SlotItemStorage.getCustomItems s' = SlotItemStorage.getCustomItems s).
Proof.
  intros itemId s s'. split; [reflexivity|]. split.
  - intro Hin. apply in_map_iff in Hin as (x & Hid & Hx).
    unfold s', SlotItemStorage.removeCustomItem, SlotItemStorage.saveCustomItems in Hx.
    cbn [SlotItemStorage.getCustomItems custom_items save_custom_items load] in Hx.
    apply filter_In in Hx as [_ Hx].
    apply negb_true_iff, String.eqb_neq in Hx. congruence.
  - intro Habsent.
    unfold s', SlotItemStorage.removeCustomItem, SlotItemStorage.saveCustomItems.
    cbn [SlotItemStorage.getCustomItems custom_items save_custom_items load].
    apply filter_keeps_all. intros x Hx.
    apply negb_true_iff, String.eqb_neq. intro Hid.
    apply Habsent. rewrite <- Hid. apply in_map. exact Hx.
Qed.

Lemma removeCustomItem_spares_builtins_witness :
  let s := {| slot_items := None; history_records := None; app_config := None;
              custom_items := Some [entry "x" 1];
              current_theme := None; app_initialized := None;
              data_version := None |} in
  SlotItemStorage.getCustomItems (SlotItemStorage.removeCustomItem "default_1" s)
  = SlotItemStorage.getCustomItems s.
Proof.
  intro s. apply (removeCustomItem_spares_builtins "default_1" s).
  simpl. intuition discriminate.
Defined.

Example removeCustomItem_builtin_id :
  SlotItemStorage.getItems
    (SlotItemStorage.removeCustomItem "default_1"
       {| slot_items := None; history_records := None; app_config := None;
          custom_items := Some [entry "x" 1];
          current_theme := None; app_initialized := None;
          data_version := None |})
  = DEFAULT_ITEMS ++ [entry "x" 1].
Proof. reflexivity. Qed.

(** ** [DataMigration] and [ConfigStorage] *)

(** X12.  [initializeApp] acts once: unless the store says the application
    was initialised, it seeds the default entries and configuration, empties
    the history and the custom entries and marks the store; on the store it
    leaves, and on any store already marked, it changes nothing and logs
    nothing. *)
Theorem initializeApp_once :
  forall s : LocalStorage,
    let s1 := fst (DataMigration.initializeApp s) in
    DataMigration.initializeApp s1 = (s1, [])
    /\ (load (app_initialized s) false = true ->
        DataMigration.initializeApp s = (s, []))
    /\ (load (app_initialized s) false = false ->
        SlotItemStorage.getItems s1 = DEFAULT_ITEMS
        /\ HistoryStorage.getRecords (history_records s1) = []
        /\ ConfigStorage.getConfig s1 = DEFAULT_APP_CONFIG
        /\ current_theme s1 = current_theme s
        /\ data_version s1 = data_version s).
Proof.
  intros s s1. unfold s1, DataMigration.initializeApp.
  destruct (load (app_initialized s) false) eqn:E; simpl.
  - rewrite E. simpl. repeat split; discriminate.
  - repeat split; discriminate.
Qed.

Lemma initializeApp_once_witness :
  let s := {| slot_items := None; history_records := None; app_config := None;
              custom_items := Some [entry "x" 1];
              current_theme := Some "dark"%string; app_initialized := None;
              data_version := None |} in
  let s1 := fst (DataMigration.initializeApp s) in
  SlotItemStorage.getItems s1 = DEFAULT_ITEMS
  /\ HistoryStorage.getRecords (history_records s1) = []
  /\ ConfigStorage.getConfig s1 = DEFAULT_APP_CONFIG
  /\ current_theme s1 = current_theme s
  /\ data_version s1 = data_version s.
Proof.
  intros s s1. apply (initializeApp_once s). reflexivity.
Defined.

(** X13.  [setCurrentTheme] writes two keys and no other: the theme key
    holds the new theme, and the configuration key holds the configuration
    there was (the default one when none was stored) with [currentTheme]
    set to the new theme and every other field as it was; the item keys,
    the history key, the initialisation mark and the data version are as
    before.  [resetToDefault] likewise writes the default configuration and
    the theme [classic] and nothing else.  After either, [getCurrentTheme]
    equals the configuration's [currentTheme]. *)
Theorem setCurrentTheme_writes_theme_only :
  forall (themeId : string) (s : LocalStorage),
    let old := match app_config s with
               | Some config => config
               | None => DEFAULT_APP_CONFIG
               end in
    let s' := ConfigStorage.setCurrentTheme themeId s in
    let r := ConfigStorage.resetToDefault s in
    s' = {| slot_items := slot_items s;
            history_records := history_records s;
            app_config :=
              Some {| configId := configId old;
                      activeItems := activeItems old;
                      currentTheme := themeId;
                      settings := settings old;
                      uiState := uiState old |};
            custom_items := custom_items s;
            current_theme := Some themeId;
            app_initialized := app_initialized s;
            data_version := data_version s |}
    /\ r = {| slot_items := slot_items s;
              history_records := history_records s;
              app_config := Some DEFAULT_APP_CONFIG;
              custom_items := custom_items s;
              current_theme := Some "classic"%string;
              app_initialized := app_initialized s;
              data_version := data_version s |}
    /\ ConfigStorage.getCurrentTheme s' = themeId
    /\ currentTheme (ConfigStorage.getConfig s') = themeId
    /\ ConfigStorage.getCurrentTheme r = "classic"%string
    /\ currentTheme (ConfigStorage.getConfig r) = "classic"%string
    /\ SlotItemStorage.getItems s' = SlotItemStorage.getItems s
    /\ SlotItemStorage.getItems r = SlotItemStorage.getItems s.
Proof.
  intros themeId s old s' r.
  split; [reflexivity|]. split; [reflexivity|].
  split; [reflexivity|]. split; [reflexivity|].
  split; [reflexivity|]. split; [reflexivity|].
  split; reflexivity.
Qed.

Example setCurrentTheme_on_an_initialised_store :
  let s := {| slot_items := Some DEFAULT_ITEMS; history_records := None;
              app_config := None; custom_items := Some [entry "x" 1];
              current_theme := None; app_initialized := Some true;
              data_version := Some "1.0.0"%string |} in
  ConfigStorage.setCurrentTheme "neon" s
  = {| slot_items := Some DEFAULT_ITEMS; history_records := None;
       app_config :=
         Some {| configId := "default_config";
                 activeItems := map id DEFAULT_ITEMS;
                 currentTheme := "neon";
                 settings := {| animationDuration := 3000; soundEnabled := true;
                                vibrationEnabled := true |};
                 uiState := {| configModalOpen := false;
                               historyModalOpen := false |} |};
       custom_items := Some [entry "x" 1];
       current_theme := Some "neon"%string; app_initialized := Some true;
       data_version := Some "1.0.0"%string |}.
Proof. reflexivity. Qed.

(** * Further properties of the draw handlers *)

Lemma slice0_literal {A : Type} (l : list A) (n : nat) :
  slice0 l (Z.of_nat n) = firstn n l.
Proof. rewrite slice0_nonneg by lia. rewrite Nat2Z.id. reflexivity. Qed.

Lemma firstn_both {A : Type} (n m : nat) (l : list A) :
  (n <= m)%nat -> firstn n (firstn m l) = firstn n l.
Proof. intro Hle. rewrite firstn_firstn. f_equal. lia. Qed.

(** X14.  The recent results kept by the component stay those of the three
    newest stored records: the mount effect sets them so, and
    [handleSpinComplete] keeps them so, the winner's id coming first. *)
Theorem handleSpinComplete_keeps_recent_in_step :
  forall (now : Z) (suffix iso : string) (drawn : SlotItem)
         (st : SlotMachine.State) (storage : HistoryStorage.Storage),
    SlotMachine.recentResults st
    = map itemId (firstn 3 (HistoryStorage.getRecords storage)) ->
    let after := SlotMachine.handleSpinComplete now suffix iso drawn st storage in
    SlotMachine.recentResults (fst after)
    = map itemId (firstn 3 (HistoryStorage.getRecords (snd after)))
    /\ hd_error (SlotMachine.recentResults (fst after)) = Some (id drawn)
    /\ (length (SlotMachine.recentResults (fst after)) <= 3)%nat
    /\ SlotMachine.recentResults (SlotMachine.loadHistory st storage)
       = map itemId (firstn 3 (HistoryStorage.getRecords storage)).
Proof.
  intros now suffix iso drawn st storage Hsync after.
  assert (Hrecent : SlotMachine.recentResults (fst after)
                    = id drawn :: map itemId
                                    (firstn 2 (HistoryStorage.getRecords storage))).
  { unfold after, SlotMachine.handleSpinComplete. simpl.
    rewrite (slice0_literal _ 2), Hsync, <- firstn_map.
    rewrite firstn_both by lia. rewrite firstn_map. reflexivity. }
  split; [|split; [|split]].
  - rewrite Hrecent.
    unfold after, SlotMachine.handleSpinComplete. cbn [snd].
    rewrite getRecords_addRecord, firstn_both by lia. reflexivity.
  - rewrite Hrecent. reflexivity.
  - rewrite Hrecent. cbn [length]. rewrite length_map.
    pose proof (firstn_le_length 2 (HistoryStorage.getRecords storage)). lia.
  - unfold SlotMachine.loadHistory. simpl.
    rewrite (slice0_literal _ 3). reflexivity.
Qed.

Lemma handleSpinComplete_keeps_recent_in_step_witness :
  let after :=
    SlotMachine.handleSpinComplete 1700000000000 "k3j9x0a1b" "2023-11-14T22:13:20.000Z"
      (entry "a" 1) SlotMachine.initial None in
  SlotMachine.recentResults (fst after)
  = map itemId (firstn 3 (HistoryStorage.getRecords (snd after)))
  /\ hd_error (SlotMachine.recentResults (fst after)) = Some (id (entry "a" 1))
  /\ (length (SlotMachine.recentResults (fst after)) <= 3)%nat
  /\ SlotMachine.recentResults (SlotMachine.loadHistory SlotMachine.initial None)
     = map itemId (firstn 3 (HistoryStorage.getRecords None)).
Proof.
  apply (handleSpinComplete_keeps_recent_in_step
           1700000000000 "k3j9x0a1b" "2023-11-14T22:13:20.000Z"
           (entry "a" 1) SlotMachine.initial None).
  reflexivity.
Defined.

(** X15.  [handleSpinComplete] counts every spin, the store keeps at most
    100 records: a counter that equals the number of stored records stays
    equal to it while fewer than 100 are stored, and runs ahead of it from
    the hundredth record on. *)
Theorem handleSpinComplete_counter_and_cap :
  forall (now : Z) (suffix iso : string) (drawn : SlotItem)
         (st : SlotMachine.State) (storage : HistoryStorage.Storage),
    SlotMachine.spinCount st = length (HistoryStorage.getRecords storage) ->
    let after := SlotMachine.handleSpinComplete now suffix iso drawn st storage in
    let stored := length (HistoryStorage.getRecords (snd after)) in
    SlotMachine.spinCount (fst after) = S (SlotMachine.spinCount st)
    /\ stored = Nat.min 100 (S (SlotMachine.spinCount st))
    /\ ((SlotMachine.spinCount st < 100)%nat ->
        SlotMachine.spinCount (fst after) = stored)
    /\ ((100 <= SlotMachine.spinCount st)%nat ->
        (stored < SlotMachine.spinCount (fst after))%nat).
Proof.
  intros now suffix iso drawn st storage Hcount after stored.
  assert (Hstored : stored = Nat.min 100 (S (SlotMachine.spinCount st))).
  { unfold stored, after, SlotMachine.handleSpinComplete. cbn [snd].
    rewrite getRecords_addRecord, length_firstn. simpl length.
    rewrite Hcount. reflexivity. }
  assert (Hafter : SlotMachine.spinCount (fst after)
                   = S (SlotMachine.spinCount st)) by reflexivity.
  rewrite Hafter, Hstored. repeat split; lia.
Qed.

Lemma handleSpinComplete_counter_and_cap_witness :
  let old := {| recordId := "h0"; itemId := "default_1"; timestamp := "t0";
                result := "r0" |} in
  let st := SlotMachine.loadHistory SlotMachine.initial (Some (repeat old 100)) in
  let after :=
    SlotMachine.handleSpinComplete 1700000000000 "k3j9x0a1b" "2023-11-14T22:13:20.000Z"
      (entry "a" 1) st (Some (repeat old 100)) in
  (length (HistoryStorage.getRecords (snd after))
   < SlotMachine.spinCount (fst after))%nat.
Proof.
  intros old st after.
  apply (handleSpinComplete_counter_and_cap
           1700000000000 "k3j9x0a1b" "2023-11-14T22:13:20.000Z"
           (entry "a" 1) st (Some (repeat old 100))).
  - reflexivity.
  - vm_compute. lia.
Defined.

(** * Further properties of the animation controller *)

Section ControllerRuns.

Context {num : Type} `{Number num}.

Lemma continue_snoc (w : World num) (history : list (Event num)) (ev : Event num) :
  continue w (history ++ [ev]) = step (continue w history) ev.
Proof. unfold continue. rewrite fold_left_app. reflexivity. Qed.

(** X17.  Single flight: in every world of a run at most one frame is
    queued, and the controller is spinning exactly when a frame is queued,
    exactly when it holds a frame handle; a spinning controller has its
    element. *)
Theorem at_most_one_frame_in_flight :
  forall (el : option (HTMLElement num)) (history : list (Event num)),
    let w := run el history in
    (length (frames w) <= 1)%nat
    /\ (isSpinning (this w) = true <-> frames w <> [])
    /\ (isSpinning (this w) = true <-> animationId (this w) <> None)
    /\ (isSpinning (this w) = false \/ element (this w) <> None).
Proof.
  intros el history w.
  pose proof (run_consistent el history) as Hw. fold w in Hw.
  unfold consistent in Hw. destruct Hw as (_ & Hw).
  destruct (isSpinning (this w)).
  - destruct Hw as (Hel & h & a & Haid & _ & Hfr). rewrite Hfr, Haid.
    repeat split; simpl; try lia; try discriminate; try reflexivity.
    right. exact Hel.
  - destruct Hw as (Haid & Hfr). rewrite Hfr, Haid.
    repeat split; simpl; try lia; try discriminate; try congruence;
      try (left; reflexivity).
Qed.

(** X18.  A controller made without an element never changes: whatever is
    called on it, its world is the one it was created with, and every
    [spin] is rejected with the no-element error. *)
Theorem controller_without_element_is_inert :
  forall (history : list (Event num)) (now targetAngle duration_ : num)
         (easing_ : num -> num),
    run None history = create None
    /\ spin now targetAngle duration_ easing_ (run None history)
       = (Rejected (MkError msg_no_element), create None)
    /\ NoTarget (MkError msg_no_element).
Proof.
  intros history now targetAngle duration_ easing_.
  assert (Hrun : run None history = create None).
  { induction history as [|ev history IH] using rev_ind; [reflexivity|].
    rewrite run_snoc, IH. destruct ev; reflexivity. }
  rewrite Hrun. repeat split.
Qed.

Lemma promises_sound_step (w : World num) (ev : Event num) :
  consistent w -> promises_sound w -> promises_sound (step w ev).
Proof.
  intros Hw Hsound. pose proof Hsound as (Hnodup & Hfulfilled & Hframes).
  assert (Hsame : fulfilled (stop w) = fulfilled w /\ started (stop w) = started w).
  { unfold stop. destruct (animationId (this w)) as [h|];
      [destruct (truthy (Some h))|]; split; reflexivity. }
  destruct ev as [now targetAngle duration_ easing_ | now | |]; cbn [step snd].
  - unfold spin.
    destruct (element (this w)); [|exact Hsound].
    destruct (isSpinning (this w)); [exact Hsound|].
    unfold promises_sound. simpl. split; [exact Hnodup|]. split.
    + intros q Hq. specialize (Hfulfilled q Hq). lia.
    + intros f Hf. apply in_app_or in Hf as [Hf | [<- | []]].
      * destruct (Hframes f Hf). split; [lia | assumption].
      * simpl. split; [lia|]. intro Hin. specialize (Hfulfilled _ Hin). lia.
  - unfold frame. unfold consistent in Hw. destruct Hw as (_ & Hw).
    destruct (isSpinning (this w)).
    + destruct Hw as (_ & h & a & _ & _ & Hfr). rewrite Hfr. simpl.
      assert (Ha : (promise a < started w)%nat /\ ~ In (promise a) (fulfilled w)).
      { apply (Hframes (h, a)). rewrite Hfr. left. reflexivity. }
      destruct Ha as [Hlt Hout].
      unfold animate. simpl.
      destruct (lt _ one); unfold promises_sound; simpl.
      * split; [exact Hnodup|]. split; [exact Hfulfilled|].
        intros f [<- | []]. simpl. split; assumption.
      * split; [constructor; assumption|]. split.
        -- intros q [<- | Hq]; [exact Hlt | apply Hfulfilled; exact Hq].
        -- intros f [].
    + destruct Hw as (_ & Hfr). rewrite Hfr. simpl.
      unfold promises_sound. simpl.
      split; [exact Hnodup|]. split; [exact Hfulfilled | intros f []].
  - destruct (consistent_stop w Hw) as (_ & Hfr & _).
    unfold promises_sound. rewrite Hfr.
    destruct Hsame as [-> ->].
    split; [exact Hnodup|]. split; [exact Hfulfilled | intros f []].
  - destruct (consistent_stop w Hw) as (_ & Hfr & _).
    unfold promises_sound.
    change (frames (reset w)) with (frames (stop w)).
    change (fulfilled (reset w)) with (fulfilled (stop w)).
    change (started (reset w)) with (started (stop w)).
    rewrite Hfr. destruct Hsame as [-> ->].
    split; [exact Hnodup|]. split; [exact Hfulfilled | intros f []].
Qed.

Lemma run_promises_sound (el : option (HTMLElement num))
    (history : list (Event num)) :
  promises_sound (run el history).
Proof.
  induction history as [|ev history IH] using rev_ind.
  - unfold promises_sound. simpl.
    split; [constructor|]. split; [intros q [] | intros f []].
  - rewrite run_snoc. apply promises_sound_step; [apply run_consistent | exact IH].
Qed.

(** X19.  Along every run a promise is fulfilled at most once, and only the
    promise of a spin that was started; the promise of the frame in flight
    is not fulfilled yet. *)
Theorem promise_fulfilled_at_most_once :
  forall (el : option (HTMLElement num)) (history : list (Event num)),
    let w := run el history in
    NoDup (fulfilled w)
    /\ (forall q, In q (fulfilled w) -> (q < started w)%nat)
    /\ (forall f, In f (frames w) -> ~ In (promise (snd f)) (fulfilled w)).
Proof.
  intros el history w.
  destruct (run_promises_sound el history) as (Hnodup & Hfulfilled & Hframes).
  fold w in Hnodup, Hfulfilled, Hframes.
  split; [exact Hnodup|]. split; [exact Hfulfilled|].
  intros f Hf. apply (Hframes f Hf).
Qed.

Lemma abandoned_animate (p : nat) (a : Animation num) (now : num) (w : World num) :
  abandoned p w -> promise a <> p -> abandoned p (animate a now w).
Proof.
  intros (Hlt & Hout & Hframes) Ha. unfold animate. simpl.
  destruct (lt _ one); unfold abandoned; simpl.
  - split; [exact Hlt|]. split; [exact Hout|].
    intros f Hf. apply in_app_or in Hf as [Hf | [<- | []]];
      [apply Hframes; exact Hf | exact Ha].
  - split; [exact Hlt|]. split; [|exact Hframes].
    intros [Heq | Hin]; [exact (Ha Heq) | exact (Hout Hin)].
Qed.

Lemma abandoned_frames (p : nat) (now : num) (queue : list (Z * Animation num)) :
  forall w : World num,
    abandoned p w ->
    (forall f, In f queue -> promise (snd f) <> p) ->
    abandoned p (fold_left (fun w f => animate (snd f) now w) queue w).
Proof.
  induction queue as [|f queue IH]; intros w Hw Hqueue; simpl.
  - exact Hw.
  - apply IH.
    + apply abandoned_animate; [exact Hw | apply Hqueue; left; reflexivity].
    + intros g Hg. apply Hqueue. right. exact Hg.
Qed.

Lemma abandoned_stop (p : nat) (w : World num) :
  abandoned p w -> abandoned p (stop w).
Proof.
  intros (Hlt & Hout & Hframes). unfold stop.
  destruct (animationId (this w)) as [h|]; [destruct (truthy (Some h))|];
    unfold abandoned; simpl; repeat split; try assumption.
  intros f Hf. apply filter_In in Hf as [Hf _]. apply Hframes. exact Hf.
Qed.

Lemma abandoned_step (p : nat) (w : World num) (ev : Event num) :
  abandoned p w -> abandoned p (step w ev).
Proof.
  intro Hw. destruct ev as [now targetAngle duration_ easing_ | now | |];
    cbn [step snd].
  - pose proof Hw as (Hlt & Hout & Hframes). unfold spin.
    destruct (element (this w)); [|exact Hw].
    destruct (isSpinning (this w)); [exact Hw|].
    unfold abandoned. simpl. split; [lia|]. split; [exact Hout|].
    intros f Hf. apply in_app_or in Hf as [Hf | [<- | []]];
      [apply Hframes; exact Hf | simpl; lia].
  - unfold frame. apply abandoned_frames.
    + destruct Hw as (Hlt & Hout & _). repeat split; try assumption.
      intros f [].
    + destruct Hw as (_ & _ & Hframes). exact Hframes.
  - apply abandoned_stop. exact Hw.
  - exact (abandoned_stop p w Hw).
Qed.

Lemma abandoned_continue (p : nat) (w : World num) (history : list (Event num)) :
  abandoned p w -> abandoned p (continue w history).
Proof.
  intro Hw. induction history as [|ev history IH] using rev_ind.
  - exact Hw.
  - rewrite continue_snoc. apply abandoned_step. exact IH.
Qed.

(** X20.  A promise still pending when [stop] or [reset] is called is never
    fulfilled afterwards, whatever is called and however many frames the
    host draws: the caller awaiting a stopped spin is never resumed. *)
Theorem stopped_spin_never_completes :
  forall (el : option (HTMLElement num)) (history later : list (Event num))
         (p : nat),
    let w := run el history in
    (p < started w)%nat -> ~ In p (fulfilled w) ->
    ~ In p (fulfilled (continue (stop w) later))
    /\ ~ In p (fulfilled (continue (reset w) later)).
Proof.
  intros el history later p w Hlt Hout.
  assert (Hstop : abandoned p (stop w)).
  { destruct (consistent_stop w (run_consistent el history)) as (_ & Hfr & _).
    unfold abandoned. rewrite Hfr.
    assert (Hsame : fulfilled (stop w) = fulfilled w /\ started (stop w) = started w).
    { unfold stop. destruct (animationId (this w)) as [h|];
        [destruct (truthy (Some h))|]; split; reflexivity. }
    destruct Hsame as [-> ->]. repeat split; try assumption. intros f []. }
  split.
  - apply (abandoned_continue p (stop w) later Hstop).
  - assert (Hreset : abandoned p (reset w)) by exact Hstop.
    apply (abandoned_continue p (reset w) later Hreset).
Qed.

(** X21.  An idle controller is not moved by the host's frames: in every
    world of a run with [isSpinning = false] a frame changes nothing, and
    after [stop] no frame changes anything. *)
Theorem frames_do_nothing_when_idle :
  forall (el : option (HTMLElement num)) (history : list (Event num)) (now : num),
    let w := run el history in
    frame now (stop w) = stop w
    /\ (isSpinning (this w) = false -> frame now w = w).
Proof.
  intros el history now w.
  assert (Hidle : forall v : World num, frames v = [] -> frame now v = v).
  { intros v Hfr. unfold frame. rewrite Hfr. simpl.
    destruct v as [c fr nh st fu]. simpl in Hfr. subst. reflexivity. }
  pose proof (run_consistent el history) as Hw. fold w in Hw.
  split.
  - apply Hidle. apply (consistent_stop w Hw).
  - intro Hsp. apply Hidle. unfold consistent in Hw. rewrite Hsp in Hw. tauto.
Qed.

(** X22.  [stop] and [reset] are idempotent, and each absorbs a [stop]
    before or after it, in any state. *)
Theorem stop_and_reset_are_idempotent :
  forall w : World num,
    stop (stop w) = stop w
    /\ reset (reset w) = reset w
    /\ reset (stop w) = reset w
    /\ stop (reset w) = reset w.
Proof.
  intro w. destruct w as [[el sp rot aid] fr nh st fu].
  unfold reset, stop. simpl.
  destruct aid as [h|]; [destruct (h =? 0)%Z eqn:E|];
    destruct el; simpl; try rewrite E; repeat split; reflexivity.
Qed.

End ControllerRuns.

Lemma promise_fulfilled_at_most_once_witness :
  let w := run (num := Q) (Some {| style_transform := initial_transform |})
               [CallSpin 0 2148 3000 easeOutCubic; HostFrame 3000;
                CallSpin 5000 90 3000 easeOutCubic; HostFrame 6000] in
  frames w <> []
  /\ Forall (fun f => ~ In (promise (snd f)) (fulfilled w)) (frames w).
Proof.
  intro w. split; [discriminate|].
  apply Forall_forall.
  apply (promise_fulfilled_at_most_once (num := Q)
           (Some {| style_transform := initial_transform |})
           [CallSpin 0 2148 3000 easeOutCubic; HostFrame 3000;
            CallSpin 5000 90 3000 easeOutCubic; HostFrame 6000]).
Defined.

Lemma stopped_spin_never_completes_witness :
  let w := run (num := Q) (Some {| style_transform := initial_transform |})
               [CallSpin 0 2148 3000 easeOutCubic; HostFrame 1000] in
  let later := [HostFrame 2000; HostFrame 3000;
                CallSpin 3500 90 1000 easeOutCubic; HostFrame 5000] in
  ~ In 0%nat (fulfilled (continue (stop w) later))
  /\ ~ In 0%nat (fulfilled (continue (reset w) later)).
Proof.
  apply (stopped_spin_never_completes (num := Q)
           (Some {| style_transform := initial_transform |})
           [CallSpin 0 2148 3000 easeOutCubic; HostFrame 1000]
           [HostFrame 2000; HostFrame 3000;
            CallSpin 3500 90 1000 easeOutCubic; HostFrame 5000] 0%nat).
  - vm_compute. lia.
  - vm_compute. tauto.
Defined.

Lemma frames_do_nothing_when_idle_witness :
  let w := run (num := Q) (Some {| style_transform := initial_transform |})
               [CallSpin 0 2148 3000 easeOutCubic; HostFrame 3000] in
  frame 4000 w = w.
Proof.
  intro w.
  apply (frames_do_nothing_when_idle (num := Q)
           (Some {| style_transform := initial_transform |})
           [CallSpin 0 2148 3000 easeOutCubic; HostFrame 3000] 4000).
  reflexivity.
Defined.

(** ** Spins over the rationals *)

Lemma animate_keeps_element {num : Type} `{Number num}
    (a : Animation num) (now : num) (w : World num) :
  element (this w) <> None -> element (this (animate a now w)) <> None.
Proof.
  intro Hel. unfold animate.
  destruct w as [[e sp rot aid] fr nh st fu]. simpl in *.
  destruct e as [e|]; [|congruence]. unfold set_transform. simpl.
  destruct (lt _ one); simpl; discriminate.
Qed.

Lemma frames_keep_element {num : Type} `{Number num}
    (now : num) (queue : list (Z * Animation num)) :
  forall w : World num,
    element (this w) <> None ->
    element (this (fold_left (fun w f => animate (snd f) now w) queue w)) <> None.
Proof.
  induction queue as [|f queue IH]; intros w Hel; simpl; [exact Hel|].
  apply IH. apply animate_keeps_element. exact Hel.
Qed.

Lemma step_keeps_element {num : Type} `{Number num}
    (w : World num) (ev : Event num) :
  element (this w) <> None -> element (this (step w ev)) <> None.
Proof.
  intro Hel. destruct ev as [now targetAngle duration_ easing_ | now | |];
    cbn [step].
  - unfold spin. destruct (element (this w)) as [e|] eqn:E; [|congruence].
    destruct (isSpinning (this w)); simpl; rewrite E; discriminate.
  - unfold frame. apply frames_keep_element. exact Hel.
  - unfold stop. destruct (animationId (this w)) as [h|];
      [destruct (truthy (Some h))|]; exact Hel.
  - destruct w as [[e sp rot aid] fr nh st fu]. simpl in Hel.
    destruct e as [e|]; [|congruence].
    unfold reset, stop. simpl.
    destruct aid as [h|]; [destruct (h =? 0)%Z|]; simpl; discriminate.
Qed.

Lemma run_keeps_element {num : Type} `{Number num}
    (el : option (HTMLElement num)) (history : list (Event num)) :
  el <> None -> element (this (run el history)) <> None.
Proof.
  intro Hel. induction history as [|ev history IH] using rev_ind.
  - exact Hel.
  - rewrite run_snoc. apply step_keeps_element. exact IH.
Qed.

Lemma easeOutCubic_at_one (p : Q) : p == 1 -> easeOutCubic p == 1.
Proof.
  intro Hp. unfold easeOutCubic. simpl. rewrite Hp. ring.
Qed.

Lemma easeOutCubic_proper (p q : Q) : p == q -> easeOutCubic p == easeOutCubic q.
Proof.
  intro Hpq. unfold easeOutCubic. simpl. rewrite Hpq. reflexivity.
Qed.

(** A frame drawn before the duration of the queued animation has passed
    sets the rotation from the constants the animation captured and queues
    the same animation again; nothing else changes. *)
Lemma early_frame_requeues (a : Animation Q) (t : Q) (w : World Q) (h : Z) :
  0 < duration a -> t < startTime a + duration a ->
  element (this w) <> None -> frames w = [(h, a)] ->
  let rotation :=
    startRotation a
    + totalRotation a * easing a (Qmin ((t - startTime a) / duration a) 1) in
  frame t w
  = {| this := {| element := Some {| style_transform := rotate rotation |};
                  isSpinning := isSpinning (this w);
                  currentRotation := rotation;
                  animationId := Some (nextHandle w) |};
       frames := [(nextHandle w, a)];
       nextHandle := (nextHandle w + 1)%Z;
       started := started w;
       fulfilled := fulfilled w |}.
Proof.
  intros Hdur Hearly Helement Hfr rotation.
  set (x := (t - startTime a) / duration a) in *.
  assert (Hx : x < 1).
  { unfold x. apply Qlt_shift_div_r; [exact Hdur | lra]. }
  assert (Hgo : Qlt_bool (Qmin x 1) 1 = true).
  { apply Qlt_bool_iff. apply Qle_lt_trans with x; [apply Q.le_min_l | exact Hx]. }
  destruct w as [[e sp rot aid] fr nh st fu]. simpl in *. subst fr.
  destruct e as [e|]; [|congruence].
  unfold frame, animate, set_transform. simpl. fold x.
  rewrite Hgo. reflexivity.
Qed.

(** The frame drawn once the duration has passed ends the animation at its
    start rotation plus its total rotation and fulfils its promise. *)
Lemma late_frame_completes (a : Animation Q) (later : Q) (w : World Q) (h : Z) :
  0 < duration a -> startTime a + duration a <= later ->
  easing a = easeOutCubic ->
  element (this w) <> None -> frames w = [(h, a)] ->
  let w' := frame later w in
  isSpinning (this w') = false
  /\ animationId (this w') = None
  /\ currentRotation (this w') == startRotation a + totalRotation a
  /\ element (this w')
     = Some {| style_transform := rotate (currentRotation (this w')) |}
  /\ fulfilled w' = promise a :: fulfilled w
  /\ started w' = started w
  /\ frames w' = [].
Proof.
  intros Hdur Hlater Heasing Helement Hfr w'.
  set (x := (later - startTime a) / duration a).
  assert (Hx : 1 <= x).
  { unfold x. apply Qle_shift_div_l; [exact Hdur | lra]. }
  assert (Hmin : Qmin x 1 == 1) by (apply Q.min_r; exact Hx).
  assert (Hdone : Qlt_bool (Qmin x 1) 1 = false).
  { destruct (Qlt_bool (Qmin x 1) 1) eqn:E; [|reflexivity].
    apply Qlt_bool_iff in E. lra. }
  unfold w'.
  destruct w as [[e sp rot aid] fr nh st fu]. simpl in *. subst fr.
  destruct e as [e|]; [|congruence].
  unfold frame, animate, set_transform. simpl. fold x.
  rewrite Hdone. simpl. rewrite Heasing.
  split; [reflexivity|]. split; [reflexivity|]. split.
  - rewrite (easeOutCubic_at_one (Qmin x 1) Hmin). ring.
  - repeat split.
Qed.

(** While only early frames are drawn, the queue holds the one animation
    the spin captured, the controller keeps spinning and no promise is
    fulfilled. *)
Lemma early_frames_keep_animation (a : Animation Q) (ticks : list Q) :
  0 < duration a ->
  (forall t, In t ticks -> t < startTime a + duration a) ->
  forall (w : World Q) (h : Z),
    element (this w) <> None -> frames w = [(h, a)] ->
    let w' := continue w (map HostFrame ticks) in
    element (this w') <> None
    /\ (exists h', frames w' = [(h', a)])
    /\ isSpinning (this w') = isSpinning (this w)
    /\ started w' = started w
    /\ fulfilled w' = fulfilled w.
Proof.
  intros Hdur. induction ticks as [|t ticks IH]; intros Hearly w h Helement Hfr.
  - simpl. split; [exact Helement|]. split; [exists h; exact Hfr|].
    repeat split.
  - cbn [map continue fold_left step].
    pose proof (early_frame_requeues a t w h Hdur (Hearly t (or_introl eq_refl))
                  Helement Hfr) as Hframe.
    cbv zeta in Hframe.
    destruct (IH (fun u Hu => Hearly u (or_intror Hu)) (frame t w) (nextHandle w))
      as (Hel' & Hq & Hsp & Hst & Hfu).
    + rewrite Hframe. simpl. discriminate.
    + rewrite Hframe. reflexivity.
    + unfold continue in Hel', Hq, Hsp, Hst, Hfu.
      split; [exact Hel'|]. split; [exact Hq|].
      rewrite Hsp, Hst, Hfu, Hframe. simpl. repeat split.
Qed.

Lemma spin_frames_then_late_frame (w : World Q)
    (now targetAngle duration_ : Q) (ticks : list Q) (later : Q) :
  let w1 := snd (spin now targetAngle duration_ easeOutCubic w) in
  let w2 := continue w1 (map HostFrame ticks) in
  let w3 := frame later w2 in
  element (this w) <> None -> isSpinning (this w) = false -> frames w = [] ->
  0 < duration_ ->
  (forall t, In t ticks -> t < now + duration_) ->
  now + duration_ <= later ->
  isSpinning (this w1) = true
  /\ isSpinning (this w2) = true
  /\ fulfilled w2 = fulfilled w
  /\ (forall (earlier : list Q) (t : Q),
         ticks = earlier ++ [t] ->
         currentRotation (this w2)
         == currentRotation (this w)
            + targetAngle * easeOutCubic ((t - now) / duration_))
  /\ isSpinning (this w3) = false
  /\ currentRotation (this w3) == currentRotation (this w) + targetAngle
  /\ element (this w3)
     = Some {| style_transform := rotate (currentRotation (this w3)) |}
  /\ fulfilled w3 = started w :: fulfilled w
  /\ frames w3 = [].
Proof.
  intros w1 w2 w3 Helement Hidle Hfr Hdur Hearly Hlater.
  set (a := {| startTime := now; startRotation := currentRotation (this w);
               totalRotation := targetAngle; duration := duration_;
               easing := easeOutCubic; promise := started w |}).
  assert (Hw1 : element (this w1) <> None
                /\ frames w1 = [(nextHandle w, a)]
                /\ isSpinning (this w1) = true
                /\ started w1 = S (started w)
                /\ fulfilled w1 = fulfilled w).
  { unfold w1, spin, a.
    destruct w as [[e sp rot aid] fr nh st fu]. simpl in *. subst.
    destruct e as [e|]; [|congruence]. simpl.
    split; [discriminate|]. repeat split. }
  destruct Hw1 as (Hel1 & Hfr1 & Hsp1 & Hst1 & Hfu1).
  assert (Hkeep : forall early : list Q,
             (forall t, In t early -> t < now + duration_) ->
             let v := continue w1 (map HostFrame early) in
             element (this v) <> None
             /\ (exists h', frames v = [(h', a)])
             /\ isSpinning (this v) = true
             /\ fulfilled v = fulfilled w).
  { intros early Hall v.
    destruct (early_frames_keep_animation a early Hdur Hall w1 (nextHandle w)
                Hel1 Hfr1) as (Hel & Hq & Hsp & _ & Hfu).
    fold v in Hel, Hq, Hsp, Hfu.
    split; [exact Hel|]. split; [exact Hq|].
    split; [rewrite Hsp; exact Hsp1 | rewrite Hfu; exact Hfu1]. }
  destruct (Hkeep ticks Hearly) as (Hel2 & (h2 & Hfr2) & Hsp2 & Hfu2).
  fold w2 in Hel2, Hfr2, Hsp2, Hfu2.
  split; [exact Hsp1|]. split; [exact Hsp2|]. split; [exact Hfu2|].
  split.
  - intros earlier t Hticks.
    assert (Hearlier : forall u, In u earlier -> u < now + duration_).
    { intros u Hu. apply Hearly. rewrite Hticks. apply in_or_app. left. exact Hu. }
    assert (Ht : t < now + duration_).
    { apply Hearly. rewrite Hticks. apply in_or_app. right. left. reflexivity. }
    destruct (Hkeep earlier Hearlier) as (Hel & (h & Hq) & _ & _).
    unfold w2. rewrite Hticks, map_app. unfold continue.
    rewrite fold_left_app. cbn [map fold_left step].
    fold (continue w1 (map HostFrame earlier)).
    rewrite (early_frame_requeues a t _ h Hdur Ht Hel Hq).
    cbn [this currentRotation startRotation totalRotation easing startTime
         duration a].
    assert (Hx : (t - now) / duration_ < 1).
    { apply Qlt_shift_div_r; [exact Hdur | lra]. }
    rewrite (easeOutCubic_proper (Qmin ((t - now) / duration_) 1)
               ((t - now) / duration_)).
    + reflexivity.
    + apply Q.min_l. apply Qlt_le_weak. exact Hx.
  - destruct (late_frame_completes a later w2 h2 Hdur Hlater eq_refl Hel2 Hfr2)
      as (Hidle3 & _ & Hrot3 & Hshow3 & Hful3 & _ & Hfr3).
    fold w3 in Hidle3, Hrot3, Hshow3, Hful3, Hfr3.
    split; [exact Hidle3|]. split; [exact Hrot3|]. split; [exact Hshow3|].
    split; [rewrite Hful3, Hfu2; reflexivity | exact Hfr3].
Qed.

(** X23.  In exact arithmetic, a spin started on an idle controller that has
    its element, with the default easing and a positive duration, runs to
    its target whatever frames are drawn on the way.  Through any number of
    frames drawn before the duration has passed the controller keeps
    spinning, the promise stays pending, and after each such frame at time
    [t] the rotation is the rotation the spin started from plus
    [targetAngle * easeOutCubic ((t - now) / duration)].  The first frame
    drawn once the duration has passed finishes the spin: the controller is
    idle again, its rotation is the rotation the spin started from plus the
    target angle (so successive spins add up), the element shows that
    rotation, the promise of the spin is fulfilled and no frame is left
    queued. *)
Theorem spin_completes_at_target :
  forall (el : option (HTMLElement Q)) (history : list (Event Q))
         (now targetAngle duration_ : Q) (ticks : list Q) (later : Q),
    let w := run el history in
    let w1 := snd (spin now targetAngle duration_ easeOutCubic w) in
    let w2 := continue w1 (map HostFrame ticks) in
    let w3 := frame later w2 in
    el <> None -> isSpinning (this w) = false ->
    0 < duration_ ->
    (forall t, In t ticks -> t < now + duration_) ->
    now + duration_ <= later ->
    isSpinning (this w1) = true
    /\ isSpinning (this w2) = true
    /\ fulfilled w2 = fulfilled w
    /\ (forall (earlier : list Q) (t : Q),
           ticks = earlier ++ [t] ->
           currentRotation (this w2)
           == currentRotation (this w)
              + targetAngle * easeOutCubic ((t - now) / duration_))
    /\ isSpinning (this w3) = false
    /\ currentRotation (this w3) == currentRotation (this w) + targetAngle
    /\ element (this w3)
       = Some {| style_transform := rotate (currentRotation (this w3)) |}
    /\ fulfilled w3 = started w :: fulfilled w
    /\ frames w3 = [].
Proof.
  intros el history now targetAngle duration_ ticks later w w1 w2 w3
         Hel Hidle Hdur Hearly Hlater.
  pose proof (run_consistent el history) as Hw. fold w in Hw.
  unfold consistent in Hw. rewrite Hidle in Hw. destruct Hw as (_ & _ & Hfr).
  pose proof (run_keeps_element el history Hel) as Helement. fold w in Helement.
  apply spin_frames_then_late_frame; assumption.
Qed.

Lemma spin_completes_at_target_witness :
  let w := run (num := Q) (Some {| style_transform := initial_transform |})
               [CallSpin 0 2148 3000 easeOutCubic; HostFrame 3000] in
  let w1 := snd (spin 5000 90 2500 easeOutCubic w) in
  let w2 := continue w1 (map HostFrame [5016; 6250; 7484]) in
  let w3 := frame 7600 w2 in
  isSpinning (this w1) = true
  /\ isSpinning (this w2) = true
  /\ fulfilled w2 = fulfilled w
  /\ (forall (earlier : list Q) (t : Q),
         [5016; 6250; 7484] = earlier ++ [t] ->
         currentRotation (this w2)
         == currentRotation (this w)
            + 90 * easeOutCubic ((t - 5000) / 2500))
  /\ isSpinning (this w3) = false
  /\ currentRotation (this w3) == currentRotation (this w) + 90
  /\ element (this w3)
     = Some {| style_transform := rotate (currentRotation (this w3)) |}
  /\ fulfilled w3 = started w :: fulfilled w
  /\ frames w3 = [].
Proof.
  apply (spin_completes_at_target
           (Some {| style_transform := initial_transform |})
           [CallSpin 0 2148 3000 easeOutCubic; HostFrame 3000]
           5000 90 2500 [5016; 6250; 7484] 7600).
  - discriminate.
  - reflexivity.
  - reflexivity.
  - intros t [<- | [<- | [<- | []]]]; reflexivity.
  - discriminate.
Defined.

Example spin_through_three_frames :
  let w := continue (create (num := Q) (Some {| style_transform := initial_transform |}))
             [CallSpin 0 2148 3000 easeOutCubic;
              HostFrame 1500; HostFrame 2250; HostFrame 3000] in
  Qred (currentRotation (this w)) = 2148
  /\ isSpinning (this w) = false
  /\ fulfilled w = [0%nat]
  /\ Qred (currentRotation
             (this (continue (create (num := Q)
                                (Some {| style_transform := initial_transform |}))
                      [CallSpin 0 2148 3000 easeOutCubic; HostFrame 1500])))
     = 3759 # 2.
Proof. vm_compute. repeat split. Qed.

(** X24.  The default easing [easeOutCubic] meets what the controller asks
    of an easing: it is 0 at 0 and 1 at 1, stays within [0, 1] on [0, 1]
    and never decreases there.  [easeOutBack] also runs from 0 to 1 but
    overshoots: it is above 1 for every progress between [1 / 2.70158] and
    1. *)
Theorem easings_endpoints_and_range :
  easeOutCubic (num := Q) 0 == 0
  /\ easeOutCubic (num := Q) 1 == 1
  /\ (forall t : Q, 0 <= t -> t <= 1 ->
                    0 <= easeOutCubic t /\ easeOutCubic t <= 1)
  /\ (forall s t : Q, 0 <= s -> s <= t -> t <= 1 ->
                      easeOutCubic s <= easeOutCubic t)
  /\ easeOutBack 0 == 0
  /\ easeOutBack 1 == 1
  /\ (forall t : Q, 1 < 2.70158 * t -> t < 1 -> 1 < easeOutBack t).
Proof.
  unfold easeOutCubic, easeOutBack. simpl.
  split; [ring|]. split; [ring|]. split; [|split; [|split; [|split]]].
  - intros t H0 H1.
    assert (Hu : 0 <= 1 - t) by lra. assert (Hu1 : 1 - t <= 1) by lra.
    set (u := 1 - t) in *. clearbody u.
    assert (Huu : 0 <= u * u) by nra. assert (Huu1 : u * u <= 1) by nra.
    split; nra.
  - intros s t H0 Hst H1.
    set (u := 1 - s). set (v := 1 - t).
    assert (Hv : 0 <= v) by (unfold v; lra).
    assert (Hvu : v <= u) by (unfold u, v; lra).
    clearbody u v.
    assert (Hvv : v * v <= u * u) by nra.
    assert (Hvv0 : 0 <= v * v) by nra.
    assert (Hcube : v * v * v <= u * u * u) by nra.
    lra.
  - ring.
  - ring.
  - intros t Hlow Hhigh.
    set (d := t - 1) in *.
    assert (Hd : d < 0) by (unfold d; lra).
    assert (Hsq : 0 < d * d) by nra.
    assert (Hlin : 0 < (1.70158 + 1) * d + 1.70158) by (unfold d; lra).
    assert (Hprod : 0 < d * d * ((1.70158 + 1) * d + 1.70158)) by nra.
    nra.
Qed.

Lemma easings_endpoints_and_range_witness :
  (0 <= easeOutCubic (num := Q) (1 # 2) /\ easeOutCubic (num := Q) (1 # 2) <= 1)
  /\ easeOutCubic (num := Q) (1 # 4) <= easeOutCubic (1 # 2)
  /\ 1 < easeOutBack (1 # 2).
Proof.
  destruct easings_endpoints_and_range as (_ & _ & Hrange & Hmono & _ & _ & Hback).
  split; [apply Hrange; [discriminate | discriminate]|].
  split; [apply Hmono; discriminate|].
  apply Hback; reflexivity.
Defined.

(** ** The engine and the controller together *)

Lemma calculateRotationAngle_value (rnd : Q) (items : list SlotItem)
    (selectedItem : SlotItem) (baseRotations : Q) (i : nat) :
  chosen_at items selectedItem i ->
  fst (calculateRotationAngle rnd items selectedItem baseRotations)
  = baseRotations * 360
    + (360 - inject_Z (Z.of_nat i) * (360 / inject_Z (Z.of_nat (length items))))
    + (rnd - 0.5) * (360 / inject_Z (Z.of_nat (length items))) * 0.8.
Proof.
  intro Hchosen.
  assert (Hne : items <> []).
  { destruct Hchosen as [(item & Hnth & _) _].
    intros ->. destruct i; discriminate. }
  unfold calculateRotationAngle.
  rewrite (length_eqb_nonempty _ Hne), (chosen_at_findIndex _ _ _ Hchosen).
  destruct (Z.of_nat i =? -1)%Z eqn:E; [apply Z.eqb_eq in E; lia|].
  reflexivity.
Qed.

(** X25.  In exact arithmetic, on a wheel that has not turned yet, take a
    pool that holds at index [i] an entry carrying the chosen id, no earlier
    entry carrying it, and spin by the angle [calculateRotationAngle] gives
    for the chosen entry.  Whatever frames are drawn before the duration has
    passed, the first frame drawn after it leaves the wheel idle, the
    promise fulfilled, and the rotation at
    [baseRotations * 360 + 360 - i * sector], off by less than half a
    sector: turned back by [i] sectors, the chosen entry is under the
    pointer. *)
Theorem first_spin_stops_on_chosen_sector :
  forall (rnd : Q) (items : list SlotItem) (selectedItem : SlotItem)
         (baseRotations : Q) (i : nat) (wheel : HTMLElement Q)
         (now duration_ : Q) (ticks : list Q) (later : Q),
    0 <= rnd -> rnd < 1 ->
    chosen_at items selectedItem i ->
    0 < duration_ ->
    (forall t, In t ticks -> t < now + duration_) ->
    now + duration_ <= later ->
    let sector := 360 / inject_Z (Z.of_nat (length items)) in
    let delta := fst (calculateRotationAngle rnd items selectedItem baseRotations) in
    let w := frame later
               (continue (snd (spin now delta duration_ easeOutCubic
                                 (create (Some wheel))))
                         (map HostFrame ticks)) in
    isSpinning (this w) = false
    /\ fulfilled w = [0%nat]
    /\ frames w = []
    /\ element (this w)
       = Some {| style_transform := rotate (currentRotation (this w)) |}
    /\ Qabs (currentRotation (this w)
             - (baseRotations * 360 + 360 - inject_Z (Z.of_nat i) * sector))
       < sector / 2.
Proof.
  intros rnd items selectedItem baseRotations i wheel now duration_ ticks later
         H0 H1 Hchosen Hdur Hearly Hlater sector delta w.
  destruct (spin_frames_then_late_frame (create (Some wheel)) now delta
              duration_ ticks later)
    as (_ & _ & _ & _ & Hidle & Hrot & Hshow & Hful & Hfr);
    try assumption; try reflexivity; try discriminate.
  fold w in Hidle, Hrot, Hshow, Hful, Hfr.
  split; [exact Hidle|]. split; [exact Hful|]. split; [exact Hfr|].
  split; [exact Hshow|].
  assert (Hsector : 0 < sector).
  { apply sector_positive. destruct Hchosen as [(item & Hnth & _) _].
    destruct items; [destruct i; discriminate | simpl; lia]. }
  rewrite Hrot. unfold delta.
  rewrite (calculateRotationAngle_value rnd items selectedItem baseRotations i Hchosen).
  fold sector. simpl (currentRotation (this (create (Some wheel)))).
  assert (Hhalf : sector / 2 == sector * (1 # 2)) by (unfold Qdiv; reflexivity).
  rewrite Hhalf.
  apply Qabs_Qlt_condition. split; nra.
Qed.

Lemma first_spin_stops_on_chosen_sector_witness :
  let sector := 360 / inject_Z (Z.of_nat (length DEFAULT_ITEMS)) in
  let delta := fst (calculateRotationAngle (1 # 4) DEFAULT_ITEMS
                      (default_item "default_3" "恭喜发财") 5) in
  let w := frame 3016
             (continue (snd (spin 0 delta 3000 easeOutCubic
                               (create (Some {| style_transform := initial_transform |}))))
                       (map HostFrame [16; 1500; 2984])) in
  isSpinning (this w) = false
  /\ fulfilled w = [0%nat]
  /\ frames w = []
  /\ element (this w)
     = Some {| style_transform := rotate (currentRotation (this w)) |}
  /\ Qabs (currentRotation (this w)
           - (5 * 360 + 360 - inject_Z (Z.of_nat 2) * sector))
     < sector / 2.
Proof.
  apply (first_spin_stops_on_chosen_sector
           (1 # 4) DEFAULT_ITEMS (default_item "default_3" "恭喜发财") 5 2
           {| style_transform := initial_transform |} 0 3000
           [16; 1500; 2984] 3016).
  - discriminate.
  - reflexivity.
  - split.
    + eexists. split; reflexivity.
    + intros [|[|j]] item Hj Hnth; try lia; injection Hnth as <-; discriminate.
  - reflexivity.
  - intros t [<- | [<- | [<- | []]]]; reflexivity.
  - discriminate.
Defined.

